(** * PostgresAgent: plan validation, plan-to-SQL compilation, introspection

    A shallow embedding of [packages/agents/postgres/index.ts].  The class
    [PostgresAgent] owns a [pg] client, a [connected] flag and a private
    [tableNameMap]; its asynchronous methods are awaited one after the other,
    so they are embedded as computations in a state-and-exception monad over
    the agent's mutable fields.  The [pg] client is an external collaborator:
    it is a parameter of the development, and every call made to it is
    recorded in the agent's call history.  The plain objects the class uses
    as dictionaries ([tableNameMap], the schema, the fields of a table) are
    finite maps of their own properties, read and written as JavaScript reads
    and writes a plain object: a read falls back on [Object.prototype], and
    an assignment under [__proto__] makes no own property.
    [String.prototype.toLowerCase] is a parameter of the development: the
    theorems hold for every function in its place.  [dbName], which the
    constructor reads off the connection string, plays no part in the
    methods: it is modelled apart from the agent's fields, in [DbUrl].  The
    [type] tag is left out.
    [generatePlan] is [introspect] followed by a call to the plan generator,
    a parameter like the client. *)

From Stdlib Require Import String Ascii List Lia.
From stdpp Require Import base option list strings gmap pretty.

(** ** JavaScript values and string primitives *)

Module Js.

(** The primitive values that travel through the agent untouched: bound
    parameters of a query and the cells of a result row.  The agent never
    computes with a number; the only thing it may do to one is print it, so
    a number is carried as the text [String(n)] prints for it. *)
Inductive Value : Type :=
| Undefined
| Null
| Bool (b : bool)
| Num (printed : string)
| Str (s : string).

#[global] Instance Value_eq_dec : EqDecision Value.
Proof. solve_decision. Defined.

(** [String(v)], as applied by a template literal and by a property key. *)
Definition toString (v : Value) : string :=
  match v with
  | Undefined => "undefined"
  | Null => "null"
  | Bool true => "true"
  | Bool false => "false"
  | Num printed => printed
  | Str s => s
  end.

(** The double-quote character of an SQL quoted identifier. *)
Definition dquote : string := String (ascii_of_nat 34) EmptyString.

(** [String.prototype.toLowerCase].  The Unicode case mapping it applies is
    not written out here: it is a parameter, and nothing is assumed of it. *)
Class Lowercase : Type := toLowerCase : string -> string.

(** The mapping on the letters A to Z alone, every other byte left as it is.
    It agrees with [String.prototype.toLowerCase] on strings of ASCII
    characters, and serves to run the model on such strings. *)
Definition lowerChar (c : ascii) : ascii :=
  let n := nat_of_ascii c in
  if (65 <=? n)%nat && (n <=? 90)%nat then ascii_of_nat (n + 32) else c.

Fixpoint asciiLowerCase (s : string) : string :=
  match s with
  | EmptyString => EmptyString
  | String c rest => String (lowerChar c) (asciiLowerCase rest)
  end.

Definition asciiLowercase : Lowercase := asciiLowerCase.

(** The names of the properties a plain object inherits from
    [Object.prototype]. *)
Definition objectPrototype : list string :=
  [ "constructor"; "__defineGetter__"; "__defineSetter__"; "hasOwnProperty";
    "__lookupGetter__"; "__lookupSetter__"; "isPrototypeOf";
    "propertyIsEnumerable"; "toString"; "valueOf"; "__proto__";
    "toLocaleString" ].

(** [obj[key]] on a plain object whose own properties hold strings: the own
    property when there is one, else the property of that name of
    [Object.prototype], else [undefined]. *)
Inductive Read : Type :=
| Own (s : string)
| Inherited (property : string)
| Missing.

Definition read (own : gmap string string) (key : string) : Read :=
  match own !! key with
  | Some s => Own s
  | None => if decide (key ∈ objectPrototype) then Inherited key else Missing
  end.

(** What [getActualTableName] hands back: a string, or the value
    [Object.prototype] holds under [property] (a built-in function, or
    [Object.prototype] itself under [__proto__]). *)
Inductive Name : Type :=
| Text (s : string)
| Builtin (property : string).

(** [x || requested] for what a read gives: the empty string and
    [undefined] are falsy, a function or an object is truthy. *)
Definition orRequested (x : Read) (requested : string) : Name :=
  match x with
  | Own s => if decide (s = EmptyString) then Text requested else Text s
  | Inherited property => Builtin property
  | Missing => Text requested
  end.

(** [`${name}`].  [Object.prototype] prints as [[object Object]]; a built-in
    function prints as Node prints it, under the name of the function, which
    for the property [constructor] is [Object]. *)
Definition render (name : Name) : string :=
  match name with
  | Text s => s
  | Builtin property =>
      if decide (property = "__proto__") then "[object Object]"
      else "function " +:+
           (if decide (property = "constructor") then "Object" else property)
           +:+ "() { [native code] }"
  end.

(** [obj[key] = value] on a plain object, as it shows in the own properties.
    Under the key [__proto__] the assignment makes no own property: a string
    is dropped, an object becomes the prototype. *)
Definition assign {V : Type} (key : string) (value : V) (own : gmap string V)
  : gmap string V :=
  if decide (key = "__proto__") then own else <[key := value]> own.

(** [Array.prototype.join] on an array of strings. *)
Definition join (sep : string) (parts : list string) : string :=
  String.concat sep parts.

(** [x || d] where [x] is a string or [undefined]: the empty string and
    [undefined] are the falsy cases. *)
Definition orElse (x : option string) (d : string) : string :=
  match x with
  | Some s => if decide (s = EmptyString) then d else s
  | None => d
  end.

(** [!x] where [x] is a string or [undefined]. *)
Definition falsy (x : option string) : bool :=
  match x with
  | Some s => bool_decide (s = EmptyString)
  | None => true
  end.

(** [`${x}`] where [x] is a string or [undefined]. *)
Definition interpolate (x : option string) : string :=
  match x with
  | Some s => s
  | None => toString Undefined
  end.

(** [`$${i + 1}`]: the positional placeholder of the parameter at index [i]. *)
Definition placeholder (i : nat) : string := "$" +:+ pretty (i + 1)%nat.

End Js.

(** ** Query plans

    [plan: any] in the source.  A plan is read through five properties, each
    of which may be missing; when present they carry the shapes the plan
    generator gives them.  [values] lists the own enumerable properties of
    the [values] object in the order [Object.keys] and [Object.values]
    enumerate them.  [fields] is [None] when the property is missing or is not
    an array. *)

Module Plan.
Record t : Type := Build {
  operation : option string;
  table : option string;
  fields : option (list string);
  where_ : option string;
  values : option (list (string * Js.Value))
}.
End Plan.

(** ** The pg client *)

Module Pg.

(** A result row: column name to cell. *)
Abbreviation Row := (gmap string Js.Value).

(** [row.name], for the three column names the agent reads ([table_name],
    [column_name], [data_type], none of them a property of
    [Object.prototype]): a missing property reads as [undefined]. *)
Definition get (r : Row) (name : string) : Js.Value :=
  default Js.Undefined (r !! name).

(** The calls the agent makes on its client.  [CallQuery text None] is
    [client.query(text)]; [CallQuery text (Some vs)] is
    [client.query(text, vs)]. *)
Inductive Call : Type :=
| CallConnect
| CallEnd
| CallQuery (text : string) (params : option (list Js.Value)).

(** The client's answers.  Each answer may depend on every call made so far
    (the database behind the client is stateful).  [connect] and [end_]
    answer [None] when the promise resolves and [Some reason] when it
    rejects; [query] answers the rows of the result, or the reason of the
    rejection. *)
Record Client : Type := {
  connect : list Call -> option string;
  end_ : list Call -> option string;
  query : list Call -> string -> option (list Js.Value) -> string + list Row
}.

End Pg.

(** ** Exceptions *)

Inductive Exn : Type :=
| Error (message : string)      (* [throw new Error(message)] *)
| TypeError                     (* raised by the engine *)
| Rejected (reason : string).   (* a rejected promise of the client *)

(** ** Schema returned by [introspect]

    The own properties of the object [introspect] returns, and of the
    [fields] object of each of its entries. *)

Module Schema.
Record Field : Type := { type : Js.Value }.
Record Table : Type := { fields : gmap string Field }.
Abbreviation t := (gmap string Table).
End Schema.

(** ** Result of [execute] *)

Record ExecResult : Type := {
  rows : list Pg.Row;
  rawQuery : string;
  queryType : string
}.

(** ** The agent's mutable fields

    [calls] is the history of the calls made on [this.client], oldest first. *)

Record Agent : Type := {
  connected : bool;
  tableNameMap : gmap string string;
  calls : list Pg.Call
}.

(** The fields right after the constructor has run. *)
Definition newAgent : Agent :=
  {| connected := false; tableNameMap := ∅; calls := [] |}.

(** ** The monad of the agent's methods

    A method runs from the agent's fields to an outcome and the fields it
    leaves behind; a thrown exception keeps the assignments made before it. *)

Definition M (A : Type) : Type := Agent -> (Exn + A) * Agent.

#[global] Instance M_ret : MRet M := fun A x a => (inr x, a).

#[global] Instance M_bind : MBind M := fun A B f m a =>
  match m a with
  | (inl e, a') => (inl e, a')
  | (inr x, a') => f x a'
  end.

Definition throw {A : Type} (e : Exn) : M A := fun a => (inl e, a).

Definition getConnected : M bool := fun a => (inr (connected a), a).

Definition setConnected (b : bool) : M unit := fun a =>
  (inr tt, {| connected := b; tableNameMap := tableNameMap a; calls := calls a |}).

Definition getTableNameMap : M (gmap string string) := fun a =>
  (inr (tableNameMap a), a).

Definition setTableNameMap (m : gmap string string) : M unit := fun a =>
  (inr tt, {| connected := connected a; tableNameMap := m; calls := calls a |}).

Definition record (c : Pg.Call) (a : Agent) : Agent :=
  {| connected := connected a; tableNameMap := tableNameMap a;
     calls := calls a ++ [c] |}.

(** The SQL text of the two catalog queries of [introspect], as the template
    literals of the source spell them. *)
Definition tablesQuery : string := "
      SELECT table_name
      FROM information_schema.tables
      WHERE table_schema = 'public'
    ".

Definition columnsQuery : string := "
        SELECT column_name, data_type
        FROM information_schema.columns
        WHERE table_name = $1
      ".

Section PostgresAgent.

Context {lowercase : Js.Lowercase}.
Variable client : Pg.Client.

(** [await this.client.connect()] *)
Definition clientConnect : M unit := fun a =>
  match Pg.connect client (calls a) with
  | Some reason => (inl (Rejected reason), record Pg.CallConnect a)
  | None => (inr tt, record Pg.CallConnect a)
  end.

(** [await this.client.end()] *)
Definition clientEnd : M unit := fun a =>
  match Pg.end_ client (calls a) with
  | Some reason => (inl (Rejected reason), record Pg.CallEnd a)
  | None => (inr tt, record Pg.CallEnd a)
  end.

(** [await this.client.query(text)] and [await this.client.query(text, params)] *)
Definition clientQuery (text : string) (params : option (list Js.Value))
  : M (list Pg.Row) := fun a =>
  match Pg.query client (calls a) text params with
  | inl reason => (inl (Rejected reason), record (Pg.CallQuery text params) a)
  | inr res => (inr res, record (Pg.CallQuery text params) a)
  end.

Definition connectIfNeeded : M unit :=
  c ← getConnected;
  if negb (c : bool) then clientConnect ;; setConnected true else mret tt.

Definition close : M unit :=
  c ← getConnected;
  if (c : bool) then clientEnd ;; setConnected false else mret tt.

Definition validate (plan : Plan.t) : bool :=
  if Js.falsy (Plan.operation plan) || Js.falsy (Plan.table plan) then false
  else true.

(** [this.tableNameMap[requested.toLowerCase()] || requested].  A missing
    [plan.table] makes [requested.toLowerCase()] raise. *)
Definition getActualTableName (requested : option string) : M Js.Name :=
  match requested with
  | None => throw TypeError
  | Some requested =>
      m ← getTableNameMap;
      mret (Js.orRequested (Js.read m (Js.toLowerCase requested)) requested)
  end.

Definition result (res : list Pg.Row) (sqlQuery : string) : ExecResult :=
  {| rows := res; rawQuery := sqlQuery; queryType := "sql" |}.

Definition execute (plan : Plan.t) : M ExecResult :=
  connectIfNeeded ;;
  actualTableName ← getActualTableName (Plan.table plan);
  let quotedTableName :=
    Js.dquote +:+ Js.render actualTableName +:+ Js.dquote in
  let operation := Plan.operation plan in
  if decide (operation = Some "select") then
    let where_ := Js.orElse (Plan.where_ plan) "TRUE" in
    let fields :=
      match Plan.fields plan with
      | Some (f :: fs) => Js.join ", " (f :: fs)
      | _ => "*"
      end in
    let sqlQuery :=
      "SELECT " +:+ fields +:+ " FROM " +:+ quotedTableName +:+
      " WHERE " +:+ where_ in
    res ← clientQuery sqlQuery None;
    mret (result res sqlQuery)
  else if decide (operation = Some "insert") then
    match Plan.values plan with
    | None => throw TypeError
    | Some kvs =>
        let fields := kvs.*1 in
        let values := kvs.*2 in
        let placeholders :=
          Js.join ", " (imap (fun i _ => Js.placeholder i) fields) in
        let sqlQuery :=
          "INSERT INTO " +:+ quotedTableName +:+ " (" +:+
          Js.join ", " fields +:+ ") VALUES (" +:+ placeholders +:+
          ") RETURNING *" in
        res ← clientQuery sqlQuery (Some values);
        mret (result res sqlQuery)
    end
  else if decide (operation = Some "update") then
    match Plan.values plan with
    | None => throw TypeError
    | Some kvs =>
        let setFields :=
          Js.join ", "
            (imap (fun i k => k +:+ " = " +:+ Js.placeholder i) (kvs.*1)) in
        let values := kvs.*2 in
        let sqlQuery :=
          "UPDATE " +:+ quotedTableName +:+ " SET " +:+ setFields +:+
          " WHERE " +:+ Js.interpolate (Plan.where_ plan) +:+
          " RETURNING *" in
        res ← clientQuery sqlQuery (Some values);
        mret (result res sqlQuery)
    end
  else if decide (operation = Some "delete") then
    let sqlQuery :=
      "DELETE FROM " +:+ quotedTableName +:+ " WHERE " +:+
      Js.interpolate (Plan.where_ plan) +:+ " RETURNING *" in
    res ← clientQuery sqlQuery None;
    mret (result res sqlQuery)
  else throw (Error "Unsupported operation").

(** The [reduce] over [columnsRes.rows]: one assignment per row, a later row
    overwriting an earlier one of the same column name. *)
Definition reduceColumns (cols : list Pg.Row) : gmap string Schema.Field :=
  foldl
    (fun acc col =>
       Js.assign (Js.toString (Pg.get col "column_name"))
         {| Schema.type := Pg.get col "data_type" |} acc)
    ∅ cols.

(** The body of [for (const row of tablesRes.rows)], with the [schema]
    object built so far. *)
Fixpoint introspectRows (tableRows : list Pg.Row) (schema : Schema.t)
  : M Schema.t :=
  match tableRows with
  | [] => mret schema
  | row :: rest =>
      match Pg.get row "table_name" with
      | Js.Str table =>
          m ← getTableNameMap;
          setTableNameMap (Js.assign (Js.toLowerCase table) table m) ;;
          columnsRes ← clientQuery columnsQuery (Some [Js.Str table]);
          introspectRows rest
            (Js.assign table {| Schema.fields := reduceColumns columnsRes |}
               schema)
      | _ => throw TypeError
      end
  end.

Definition introspect : M Schema.t :=
  connectIfNeeded ;;
  tablesRes ← clientQuery tablesQuery None;
  setTableNameMap ∅ ;;
  introspectRows tablesRes ∅.

End PostgresAgent.

Section Specification.

Context {lowercase : Js.Lowercase}.

(** ** The state the connection check leaves behind

    [Ready] says the connection is up, or that the client accepts the
    connection when asked; [connectedAgent] is the agent once
    [connectIfNeeded] has gone through. *)

Definition Ready (client : Pg.Client) (a : Agent) : Prop :=
  connected a = true \/ Pg.connect client (calls a) = None.

Definition connectedAgent (a : Agent) : Agent :=
  if connected a then a
  else {| connected := true; tableNameMap := tableNameMap a;
          calls := calls a ++ [Pg.CallConnect] |}.

(** [submits client text params a out]: from the fields [a], a run with
    outcome [out] has made exactly one query on the client, [text] with
    [params], after connecting if needed; it returns the client's rows
    together with [text], or the client's rejection. *)
Definition submits (client : Pg.Client) (text : string)
    (params : option (list Js.Value)) (a : Agent)
    (out : (Exn + ExecResult) * Agent) : Prop :=
  calls (snd out) = calls (connectedAgent a) ++ [Pg.CallQuery text params] /\
  fst out =
    match Pg.query client (calls (connectedAgent a)) text params with
    | inl reason => inl (Rejected reason)
    | inr res => inr {| rows := res; rawQuery := text; queryType := "sql" |}
    end.

(** A client whose every promise resolves, with no rows. *)
Definition quietClient : Pg.Client :=
  {| Pg.connect := fun _ => None;
     Pg.end_ := fun _ => None;
     Pg.query := fun _ _ _ => inr [] |}.

(** The quoted identifier [execute] computes for a requested table name, from
    the table-name map the agent holds: what the map reads under the
    lowercased request, or else the request, printed between double
    quotes. *)
Definition quotedTableName (a : Agent) (requested : string) : string :=
  Js.dquote +:+
  Js.render
    (Js.orRequested (Js.read (tableNameMap a) (Js.toLowerCase requested))
       requested) +:+
  Js.dquote.

(** The placeholders [$1, ..., $n], in this order. *)
Definition placeholders (n : nat) : list string :=
  map (fun i : nat => "$" +:+ pretty i) (seq 1 n).

(** The assignments [k1 = $1, ..., kn = $n], in the order of the keys. *)
Definition assignments (keys : list string) : list string :=
  zip_with (fun k p => k +:+ " = " +:+ p) keys (placeholders (length keys)).

(** ** The states an agent goes through

    The public methods, each taking the agent from one state to the next
    whether it returns or throws.  [generatePlan] moves the agent as
    [introspect] does: the rest of it is a call to the plan generator. *)

Inductive step (client : Pg.Client) (a : Agent) : Agent -> Prop :=
| step_connectIfNeeded : step client a (snd (connectIfNeeded client a))
| step_close : step client a (snd (close client a))
| step_introspect : step client a (snd (introspect client a))
| step_execute (plan : Plan.t) : step client a (snd (execute client plan a)).

Inductive reachable (client : Pg.Client) : Agent -> Prop :=
| reachable_new : reachable client newAgent
| reachable_step (a a' : Agent) :
    reachable client a -> step client a a' -> reachable client a'.

(** The table-name map as [introspect] builds it: every key is the lowercased
    form of the stored name it maps to, and no key is [__proto__]. *)
Definition tableNameMapOk (m : gmap string string) : Prop :=
  forall key stored,
    m !! key = Some stored -> key = Js.toLowerCase stored /\ key <> "__proto__".

(** The select list of a select plan: the caller's fields, or [*] when there
    are none. *)
Definition selectList (plan : Plan.t) : string :=
  match Plan.fields plan with
  | Some (f :: fs) => Js.join ", " (f :: fs)
  | _ => "*"
  end.

(** [tableClause plan ident text]: in the statement [text] compiled for
    [plan], the table identifier is [ident]; it follows the keyword that
    introduces the table for the plan's operation. *)
Definition tableClause (plan : Plan.t) (ident text : string) : Prop :=
  (Plan.operation plan = Some "select" /\
   exists where_,
     text = "SELECT " +:+ selectList plan +:+ " FROM " +:+ ident +:+
            " WHERE " +:+ where_) \/
  (Plan.operation plan = Some "insert" /\
   exists rest, text = "INSERT INTO " +:+ ident +:+ " (" +:+ rest) \/
  (Plan.operation plan = Some "update" /\
   exists rest, text = "UPDATE " +:+ ident +:+ " SET " +:+ rest) \/
  (Plan.operation plan = Some "delete" /\
   exists rest, text = "DELETE FROM " +:+ ident +:+ " WHERE " +:+ rest).

(** The four operation tags of the [switch] in [execute]. *)
Definition supported (operation : option string) : Prop :=
  operation = Some "select" \/ operation = Some "insert" \/
  operation = Some "update" \/ operation = Some "delete".

(** The calls [execute] makes when it makes no query: the connection attempt,
    if the agent was not connected. *)
Definition connectionCalls (a : Agent) : list Pg.Call :=
  if connected a then [] else [Pg.CallConnect].

(** [present x]: the property is there and is not the empty string. *)
Definition present (x : option string) : Prop :=
  exists s, x = Some s /\ s <> EmptyString.

End Specification.

(** ** A database behind the client

    The two catalog views [introspect] reads, and a client that answers the
    two catalog queries from them as their [WHERE] clauses say. *)

Module InformationSchema.

Module Tables.
Record row : Type := { table_schema : string; table_name : string }.
End Tables.

Module Columns.
Record row : Type := {
  table_schema : string;
  table_name : string;
  column_name : string;
  data_type : string
}.
End Columns.

Record t : Type := { tables : list Tables.row; columns : list Columns.row }.

(** [SELECT table_name FROM information_schema.tables
     WHERE table_schema = 'public'] *)
Definition selectTables (db : t) : list Pg.Row :=
  map (fun r => {[ "table_name" := Js.Str (Tables.table_name r) ]})
    (filter (fun r => Tables.table_schema r = "public") (tables db)).

(** [SELECT column_name, data_type FROM information_schema.columns
     WHERE table_name = $1] *)
Definition selectColumns (db : t) (p1 : Js.Value) : list Pg.Row :=
  map (fun r => {[ "column_name" := Js.Str (Columns.column_name r);
                   "data_type" := Js.Str (Columns.data_type r) ]})
    (filter (fun r => Js.Str (Columns.table_name r) = p1) (columns db)).

Definition client (db : t) : Pg.Client :=
  {| Pg.connect := fun _ => None;
     Pg.end_ := fun _ => None;
     Pg.query := fun _ text params =>
       if decide (text = tablesQuery) then
         match params with
         | None | Some [] => inr (selectTables db)
         | Some _ => inl "bind message supplies too many parameters"
         end
       else if decide (text = columnsQuery) then
         match params with
         | Some [p1] => inr (selectColumns db p1)
         | _ => inl "bind message supplies the wrong number of parameters"
         end
       else inl "statement outside the catalog" |}.

(** The columns of table [table] of the default schema. *)
Definition publicColumns (db : t) (table : string) : list Columns.row :=
  filter
    (fun r => Columns.table_schema r = "public" /\ Columns.table_name r = table)
    (columns db).

End InformationSchema.

(** ** Concrete agents, plans and databases

    Their table names are strings of ASCII characters, on which the
    lowercasing of [Js.asciiLowercase] is that of the source. *)

Section Examples.

#[local] Existing Instance Js.asciiLowercase.

(** A database whose one table is [public."Users"], the client in front of
    it, and an agent that has introspected it. *)
Definition usersDb : InformationSchema.t :=
  {| InformationSchema.tables :=
       [ {| InformationSchema.Tables.table_schema := "public";
            InformationSchema.Tables.table_name := "Users" |} ];
     InformationSchema.columns :=
       [ {| InformationSchema.Columns.table_schema := "public";
            InformationSchema.Columns.table_name := "Users";
            InformationSchema.Columns.column_name := "id";
            InformationSchema.Columns.data_type := "integer" |} ] |}.

Definition usersClient : Pg.Client := InformationSchema.client usersDb.

Definition usersAgent : Agent := snd (introspect usersClient newAgent).

Definition selectAll : Plan.t :=
  Plan.Build (Some "select") (Some "USERS") None None None.

(** A select on a table whose name is that of a property every plain object
    inherits. *)
Definition selectConstructor : Plan.t :=
  Plan.Build (Some "select") (Some "constructor") None None None.

Definition insertAB : Plan.t :=
  Plan.Build (Some "insert") (Some "USERS") None None
    (Some [("a", Js.Num "1"); ("b", Js.Str "x")]).

Definition updateA : Plan.t :=
  Plan.Build (Some "update") (Some "users") None (Some "id = 1")
    (Some [("a", Js.Num "5")]).

Definition deleteOne : Plan.t :=
  Plan.Build (Some "delete") (Some "users") None (Some "id = 1") None.

Definition deleteNoWhere : Plan.t :=
  Plan.Build (Some "delete") (Some "users") None None None.

Definition updateNoWhere : Plan.t :=
  Plan.Build (Some "update") (Some "users") None None
    (Some [("a", Js.Num "5")]).

(** An update plan with neither [where] nor [values]. *)
Definition updateBare : Plan.t :=
  Plan.Build (Some "update") (Some "users") None None None.

(** A plan with an operation outside the four, naming a table. *)
Definition dropUsers : Plan.t :=
  Plan.Build (Some "drop") (Some "users") None None None.


(** Two tables named [users]: one in [public], one in [audit]. *)
Definition twoSchemas : InformationSchema.t :=
  {| InformationSchema.tables :=
       [ {| InformationSchema.Tables.table_schema := "public";
            InformationSchema.Tables.table_name := "users" |};
         {| InformationSchema.Tables.table_schema := "audit";
            InformationSchema.Tables.table_name := "users" |} ];
     InformationSchema.columns :=
       [ {| InformationSchema.Columns.table_schema := "public";
            InformationSchema.Columns.table_name := "users";
            InformationSchema.Columns.column_name := "id";
            InformationSchema.Columns.data_type := "integer" |};
         {| InformationSchema.Columns.table_schema := "audit";
            InformationSchema.Columns.table_name := "users";
            InformationSchema.Columns.column_name := "secret";
            InformationSchema.Columns.data_type := "text" |} ] |}.

End Examples.

(** [frames m]: the computation [m] leaves the [connected] flag alone and only
    adds calls at the end of the history. *)
Definition frames {A : Type} (m : M A) : Prop :=
  forall a,
    connected (snd (m a)) = connected a /\
    exists rest, calls (snd (m a)) = calls a ++ rest.

(** The entry [introspect] makes for the table [name]: the fields of every
    row the column query answers for that name. *)
Definition catalogEntry (db : InformationSchema.t) (name : string)
  : Schema.Table :=
  {| Schema.fields :=
       reduceColumns (InformationSchema.selectColumns db (Js.Str name)) |}.

(** The step of the loop of [introspect] on the schema. *)
Definition addTable (db : InformationSchema.t) (schema : Schema.t)
    (r : InformationSchema.Tables.row) : Schema.t :=
  Js.assign (InformationSchema.Tables.table_name r)
    (catalogEntry db (InformationSchema.Tables.table_name r)) schema.

(** The schema [introspect] is to answer over a database: one assignment per
    table of [public], holding what the column query answers for its name. *)
Definition catalogSchema (db : InformationSchema.t) : Schema.t :=
  foldl (addTable db) ∅
    (filter (fun r => InformationSchema.Tables.table_schema r = "public")
       (InformationSchema.tables db)).

(** ** The constructor: the database name read off the connection string

    [dbUrl.match(/\/([^/?]+)(\?|$)/)], then [match ? match[1] : ""].  The
    pattern is a slash, a capture group of one or more characters other than
    [/] and [?], and either a [?] or the end of the string.  Strings are byte
    strings; [/] and [?] are single bytes that occur in no longer character. *)

Module DbUrl.

(** The class [[^/?]]. *)
Definition inClass (c : ascii) : bool :=
  negb (Ascii.eqb c "/" || Ascii.eqb c "?").

(** [(\?|$)] at the head of [s]: a question mark comes next, or nothing. *)
Definition atEnd (s : string) : bool :=
  match s with
  | EmptyString => true
  | String c _ => Ascii.eqb c "?"
  end.

(** [([^/?]+)(\?|$)] at the head of [s]: the group takes as many characters
    as it can, and gives one back at a time while what follows does not
    match.  The answer is the text of the group. *)
Fixpoint segment (s : string) : option string :=
  match s with
  | EmptyString => None
  | String c rest =>
      if inClass c then
        match segment rest with
        | Some captured => Some (String c captured)
        | None => if atEnd rest then Some (String c EmptyString) else None
        end
      else None
  end.

(** The search of [String.prototype.match]: the pattern is tried at each
    index from the left, and the first index where it matches wins.  The
    answer is the text of group 1 of that match. *)
Fixpoint matchUrl (dbUrl : string) : option string :=
  match dbUrl with
  | EmptyString => None
  | String c rest =>
      if Ascii.eqb c "/" then
        match segment rest with
        | Some captured => Some captured
        | None => matchUrl rest
        end
      else matchUrl rest
  end.

(** [this.dbName] as the constructor sets it. *)
Definition dbName (dbUrl : string) : string :=
  match matchUrl dbUrl with
  | Some captured => captured
  | None => EmptyString
  end.

(** Every character of [s] is in the class [[^/?]]. *)
Fixpoint allInClass (s : string) : bool :=
  match s with
  | EmptyString => true
  | String c rest => inClass c && allInClass rest
  end.

(** No character of [s] is a question mark. *)
Fixpoint noQuestionMark (s : string) : bool :=
  match s with
  | EmptyString => true
  | String c rest => negb (Ascii.eqb c "?") && noQuestionMark rest
  end.

(** No character of [s] is a slash. *)
Fixpoint noSlash (s : string) : bool :=
  match s with
  | EmptyString => true
  | String c rest => negb (Ascii.eqb c "/") && noSlash rest
  end.

End DbUrl.

(** ** [generatePlan]

    The plan generator and the process environment are outside the class:
    the generator is a function from its request to a plan or a rejection,
    the environment a finite map.  [provider] and [model] are [None] when the
    caller leaves them out, and then take their default values. *)

Module Llm.
Record Request : Type := {
  prompt : string;
  provider : string;
  model : string;
  schema : Schema.t;
  apiKey : option string
}.
End Llm.

Section GeneratePlan.

Context {lowercase : Js.Lowercase}.
Variable client : Pg.Client.
Variable env : gmap string string.
Variable generatePostgresPlan : Llm.Request -> string + Plan.t.

(** [await generatePostgresPlan(request)] *)
Definition awaitPlan (request : Llm.Request) : M Plan.t := fun a =>
  match generatePostgresPlan request with
  | inl reason => (inl (Rejected reason), a)
  | inr plan => (inr plan, a)
  end.

Definition generatePlan (userPrompt : string) (provider model : option string)
  : M Plan.t :=
  let provider := default "openai" provider in
  let model := default "gpt-3.5-turbo-instruct" model in
  schema ← introspect client;
  awaitPlan
    {| Llm.prompt := userPrompt;
       Llm.provider := provider;
       Llm.model := model;
       Llm.schema := schema;
       Llm.apiKey :=
         env !! (if decide (provider = "openai") then "OPENAI_API_KEY"
                 else "GOOGLE_GENERATIVE_AI_API_KEY") |}.

End GeneratePlan.

(** ** The client as the history leaves it

    [replay client past todo up] runs the calls [todo] that follow the calls
    [past], from a client that is connected or not as [up] says.  A connect
    on a connected client, an end or a query on a disconnected one stops the
    replay with [None]; otherwise the answer is whether the client is
    connected after the last call.  A rejected connect leaves the client
    disconnected, a rejected end leaves it connected. *)

Fixpoint replay (client : Pg.Client) (past todo : list Pg.Call) (up : bool)
  : option bool :=
  match todo with
  | [] => Some up
  | c :: todo' =>
      match c with
      | Pg.CallConnect =>
          if up then None
          else replay client (past ++ [c]) todo'
                 (bool_decide (Pg.connect client past = None))
      | Pg.CallEnd =>
          if up then replay client (past ++ [c]) todo'
                      (negb (bool_decide (Pg.end_ client past = None)))
          else None
      | Pg.CallQuery _ _ =>
          if up then replay client (past ++ [c]) todo' up else None
      end
  end.

(** The history of an agent replays to its [connected] flag. *)
Definition inStep (client : Pg.Client) (a : Agent) : Prop :=
  replay client [] (calls a) false = Some (connected a).

Definition isQuery (c : Pg.Call) : Prop :=
  match c with
  | Pg.CallQuery _ _ => True
  | _ => False
  end.

(** [queries m]: the computation [m] leaves the [connected] flag alone and
    adds nothing but queries at the end of the history. *)
Definition queries {A : Type} (m : M A) : Prop :=
  forall a,
    connected (snd (m a)) = connected a /\
    exists rest, calls (snd (m a)) = calls a ++ rest /\ Forall isQuery rest.

(** ** The tables of [public], by name *)

(** The names of the tables of [public], in the order of the catalog. *)
Definition publicNames (db : InformationSchema.t) : list string :=
  map InformationSchema.Tables.table_name
    (filter (fun r => InformationSchema.Tables.table_schema r = "public")
       (InformationSchema.tables db)).

Section Names.

Context {lowercase : Js.Lowercase}.

(** The step of the loop of [introspect] on the table-name map. *)
Definition addTableName (m : gmap string string) (name : string)
  : gmap string string :=
  Js.assign (Js.toLowerCase name) name m.

(** The field entry [introspect] makes of a row of
    [information_schema.columns]. *)
Definition fieldOf (r : InformationSchema.Columns.row) : Schema.Field :=
  {| Schema.type := Js.Str (InformationSchema.Columns.data_type r) |}.

(** The last row of [information_schema.columns], whatever its schema, that
    bears the table name [table] and the column name [column]. *)
Definition lastColumn (db : InformationSchema.t) (table column : string)
  : option InformationSchema.Columns.row :=
  last
    (filter
       (fun r => InformationSchema.Columns.column_name r = column)
       (filter
          (fun r => Js.Str (InformationSchema.Columns.table_name r) = Js.Str table)
          (InformationSchema.columns db))).

(** The last table of [names] whose lowercased name is [key]. *)
Definition lastNamed (key : string) (names : list string) : option string :=
  last (filter (fun n => Js.toLowerCase n = key) names).

(** The column query [introspect] makes for the table [name]. *)
Definition columnsCall (name : string) : Pg.Call :=
  Pg.CallQuery columnsQuery (Some [Js.Str name]).

(** An entry of the table-name map that comes from a row of the table
    query. *)
Definition fromRows (tableRows : list Pg.Row) (key stored : string) : Prop :=
  exists row,
    row ∈ tableRows /\
    Pg.get row "table_name" = Js.Str stored /\
    key = Js.toLowerCase stored.

End Names.

(** A client that connects and then rejects every query. *)
Definition refusingClient : Pg.Client :=
  {| Pg.connect := fun _ => None;
     Pg.end_ := fun _ => None;
     Pg.query := fun _ _ _ => inl "connection lost" |}.

(** A database with two tables of [public] whose names differ by case
    alone: [Users], then [users]. *)
Definition collidingDb : InformationSchema.t :=
  {| InformationSchema.tables :=
       [ {| InformationSchema.Tables.table_schema := "public";
            InformationSchema.Tables.table_name := "Users" |};
         {| InformationSchema.Tables.table_schema := "public";
            InformationSchema.Tables.table_name := "users" |} ];
     InformationSchema.columns := [] |}.


Create HintDb frames.
Create HintDb queries.

Section General.

Context {lowercase : Js.Lowercase}.

(** ** Running the monad *)

Lemma bind_run {A B : Type} (m : M A) (f : A -> M B) (a : Agent) :
  (m ≫= f) a =
  match m a with
  | (inl e, a') => (inl e, a')
  | (inr x, a') => f x a'
  end.
Proof. reflexivity. Qed.

Lemma ret_run {A : Type} (x : A) (a : Agent) : mret (M := M) x a = (inr x, a).
Proof. reflexivity. Qed.

Section Connection.

Variable client : Pg.Client.

Lemma connectIfNeeded_connected (a : Agent) :
  connected a = true -> connectIfNeeded client a = (inr tt, a).
Proof.
  intros Hc. unfold connectIfNeeded. rewrite bind_run. cbn. now rewrite Hc.
Qed.

Lemma connectIfNeeded_disconnected (a : Agent) :
  connected a = false ->
  connectIfNeeded client a =
  match Pg.connect client (calls a) with
  | Some reason => (inl (Rejected reason), record Pg.CallConnect a)
  | None => (inr tt, connectedAgent a)
  end.
Proof.
  intros Hc. unfold connectIfNeeded, connectedAgent. rewrite bind_run. cbn.
  rewrite Hc. cbn. rewrite bind_run. unfold clientConnect.
  now destruct (Pg.connect client (calls a)).
Qed.

Lemma connectIfNeeded_ready (a : Agent) :
  Ready client a -> connectIfNeeded client a = (inr tt, connectedAgent a).
Proof.
  intros Hr. destruct (connected a) eqn:Hc.
  - rewrite connectIfNeeded_connected by done.
    unfold connectedAgent. now rewrite Hc.
  - rewrite connectIfNeeded_disconnected by done.
    destruct Hr as [Hr | ->]; [congruence | done].
Qed.

Lemma connectedAgent_connected (a : Agent) : connected (connectedAgent a) = true.
Proof. unfold connectedAgent. by destruct (connected a) eqn:Hc. Qed.

Lemma connectedAgent_tableNameMap (a : Agent) :
  tableNameMap (connectedAgent a) = tableNameMap a.
Proof. unfold connectedAgent. by destruct (connected a). Qed.

Lemma close_connected (a : Agent) :
  connected a = true ->
  close client a =
  match Pg.end_ client (calls a) with
  | Some reason => (inl (Rejected reason), record Pg.CallEnd a)
  | None => (inr tt, {| connected := false; tableNameMap := tableNameMap a;
                        calls := calls a ++ [Pg.CallEnd] |})
  end.
Proof.
  intros Hc. unfold close. rewrite bind_run. cbn. rewrite Hc.
  rewrite bind_run. unfold clientEnd.
  now destruct (Pg.end_ client (calls a)).
Qed.

Lemma close_disconnected (a : Agent) :
  connected a = false -> close client a = (inr tt, a).
Proof.
  intros Hc. unfold close. rewrite bind_run. cbn. now rewrite Hc.
Qed.

Lemma clientQuery_run (text : string) (params : option (list Js.Value))
    (a : Agent) :
  clientQuery client text params a =
  (match Pg.query client (calls a) text params with
   | inl reason => inl (Rejected reason)
   | inr res => inr res
   end, record (Pg.CallQuery text params) a).
Proof.
  unfold clientQuery. now destruct (Pg.query client (calls a) text params).
Qed.

End Connection.

(** ** Compilation of the four supported operations *)

Lemma imap_placeholder_from {A : Type} (l : list A) (j : nat) :
  imap (fun i _ => Js.placeholder (j + i)) l =
  map (fun i : nat => "$" +:+ pretty i) (seq (S j) (length l)).
Proof.
  revert j. induction l as [|x l IH]; intros j; [done|].
  cbn [imap length seq map]. f_equal.
  - unfold Js.placeholder. now replace (j + 0 + 1) with (S j) by lia.
  - rewrite <- IH. apply imap_ext. intros i y _. cbn.
    now replace (j + S i) with (S j + i) by lia.
Qed.

Lemma imap_placeholders {A : Type} (l : list A) :
  imap (fun i _ => Js.placeholder i) l = placeholders (length l).
Proof. apply (imap_placeholder_from l 0). Qed.

Lemma imap_assignment_from (keys : list string) (j : nat) :
  imap (fun i k => k +:+ " = " +:+ Js.placeholder (j + i)) keys =
  zip_with (fun k p => k +:+ " = " +:+ p) keys
    (map (fun i : nat => "$" +:+ pretty i) (seq (S j) (length keys))).
Proof.
  revert j. induction keys as [|k keys IH]; intros j; [done|].
  cbn [imap length seq map zip_with]. f_equal.
  - unfold Js.placeholder. now replace (j + 0 + 1) with (S j) by lia.
  - rewrite <- IH. apply imap_ext. intros i y _. cbn.
    now replace (j + S i) with (S j + i) by lia.
Qed.

Lemma imap_assignments (keys : list string) :
  imap (fun i k => k +:+ " = " +:+ Js.placeholder i) keys = assignments keys.
Proof. apply (imap_assignment_from keys 0). Qed.

Section Execute.

Variable client : Pg.Client.

Lemma getActualTableName_run (requested : string) (a : Agent) :
  getActualTableName (Some requested) a =
  (inr (Js.orRequested (Js.read (tableNameMap a) (Js.toLowerCase requested))
          requested), a).
Proof. reflexivity. Qed.

Lemma getActualTableName_missing (a : Agent) :
  getActualTableName None a = (inl TypeError, a).
Proof. reflexivity. Qed.

(** [execute] from its first line to the [switch], for a plan that names a
    table, on a connection that is up or comes up. *)
Ltac to_switch Ht Hr :=
  unfold execute;
  rewrite bind_run, (connectIfNeeded_ready _ _ Hr);
  rewrite bind_run, Ht, getActualTableName_run, connectedAgent_tableNameMap;
  cbv zeta.

(** One call of [client.query] followed by the [return] of [execute]. *)
Lemma query_then_return (text : string) (params : option (list Js.Value))
    (a : Agent) :
  submits client text params a
    ((res ← clientQuery client text params; mret (result res text))
       (connectedAgent a)).
Proof.
  rewrite bind_run, clientQuery_run. unfold submits.
  destruct (Pg.query client (calls (connectedAgent a)) text params);
    split; reflexivity.
Qed.

Lemma execute_select (plan : Plan.t) (a : Agent) (requested : string) :
  Plan.operation plan = Some "select" ->
  Plan.table plan = Some requested ->
  Ready client a ->
  submits client
    ("SELECT " +:+
     match Plan.fields plan with
     | Some (f :: fs) => Js.join ", " (f :: fs)
     | _ => "*"
     end +:+
     " FROM " +:+ quotedTableName a requested +:+
     " WHERE " +:+ Js.orElse (Plan.where_ plan) "TRUE")
    None a (execute client plan a).
Proof.
  intros Hop Ht Hr. to_switch Ht Hr. rewrite Hop.
  rewrite decide_True by done. apply query_then_return.
Qed.

Lemma execute_insert (plan : Plan.t) (a : Agent) (requested : string)
    (kvs : list (string * Js.Value)) :
  Plan.operation plan = Some "insert" ->
  Plan.table plan = Some requested ->
  Plan.values plan = Some kvs ->
  Ready client a ->
  submits client
    ("INSERT INTO " +:+ quotedTableName a requested +:+
     " (" +:+ Js.join ", " (kvs.*1) +:+
     ") VALUES (" +:+ Js.join ", " (placeholders (length kvs)) +:+
     ") RETURNING *")
    (Some (kvs.*2)) a (execute client plan a).
Proof.
  intros Hop Ht Hv Hr. to_switch Ht Hr. rewrite Hop.
  rewrite decide_False by done. rewrite decide_True by done.
  rewrite Hv. cbv zeta. rewrite imap_placeholders, length_fmap.
  apply query_then_return.
Qed.

Lemma execute_update (plan : Plan.t) (a : Agent) (requested : string)
    (kvs : list (string * Js.Value)) :
  Plan.operation plan = Some "update" ->
  Plan.table plan = Some requested ->
  Plan.values plan = Some kvs ->
  Ready client a ->
  submits client
    ("UPDATE " +:+ quotedTableName a requested +:+
     " SET " +:+ Js.join ", " (assignments (kvs.*1)) +:+
     " WHERE " +:+ Js.interpolate (Plan.where_ plan) +:+ " RETURNING *")
    (Some (kvs.*2)) a (execute client plan a).
Proof.
  intros Hop Ht Hv Hr. to_switch Ht Hr. rewrite Hop.
  do 2 rewrite decide_False by done. rewrite decide_True by done.
  rewrite Hv. cbv zeta. rewrite imap_assignments.
  apply query_then_return.
Qed.

Lemma execute_delete (plan : Plan.t) (a : Agent) (requested : string) :
  Plan.operation plan = Some "delete" ->
  Plan.table plan = Some requested ->
  Ready client a ->
  submits client
    ("DELETE FROM " +:+ quotedTableName a requested +:+
     " WHERE " +:+ Js.interpolate (Plan.where_ plan) +:+ " RETURNING *")
    None a (execute client plan a).
Proof.
  intros Hop Ht Hr. to_switch Ht Hr. rewrite Hop.
  do 3 rewrite decide_False by done. rewrite decide_True by done.
  apply query_then_return.
Qed.

End Execute.

(** ** What a method leaves of the agent's fields *)

Lemma frames_ret {A : Type} (x : A) : frames (mret (M := M) x).
Proof. intros a. split; [done|]. exists []. cbn. by rewrite app_nil_r. Qed.

Lemma frames_throw {A : Type} (e : Exn) : frames (throw (A := A) e).
Proof. intros a. split; [done|]. exists []. cbn. by rewrite app_nil_r. Qed.

Lemma frames_bind {A B : Type} (m : M A) (f : A -> M B) :
  frames m -> (forall x, frames (f x)) -> frames (m ≫= f).
Proof.
  intros Hm Hf a. rewrite bind_run.
  destruct (Hm a) as [Hc [rest Hr]]. destruct (m a) as [[e|x] a1]; cbn in *.
  - split; [done|]. by exists rest.
  - destruct (Hf x a1) as [Hc' [rest' Hr']]. split; [congruence|].
    exists (rest ++ rest'). by rewrite Hr', Hr, app_assoc.
Qed.

Lemma frames_getTableNameMap : frames getTableNameMap.
Proof. intros a. split; [done|]. exists []. cbn. by rewrite app_nil_r. Qed.

Lemma frames_setTableNameMap (m : gmap string string) :
  frames (setTableNameMap m).
Proof. intros a. split; [done|]. exists []. cbn. by rewrite app_nil_r. Qed.

Lemma frames_clientQuery (client : Pg.Client) (text : string)
    (params : option (list Js.Value)) :
  frames (clientQuery client text params).
Proof.
  intros a. rewrite clientQuery_run. cbn. split; [done|]. by eexists.
Qed.

Lemma frames_getActualTableName (requested : option string) :
  frames (getActualTableName requested).
Proof.
  destruct requested; cbn; [|apply frames_throw].
  apply frames_bind; [apply frames_getTableNameMap|]. intros m. apply frames_ret.
Qed.

#[local] Hint Resolve frames_ret frames_throw frames_getTableNameMap
  frames_setTableNameMap frames_clientQuery frames_getActualTableName : frames.

Ltac frames_step :=
  match goal with
  | |- frames (_ ≫= _) => apply frames_bind; [|intros ?]
  | |- frames (if decide ?P then _ else _) => destruct (decide P)
  | |- frames (match ?x with _ => _ end) => destruct x
  | |- frames _ => solve [auto with frames]
  end.

Lemma frames_introspectRows (client : Pg.Client) (tableRows : list Pg.Row)
    (schema : Schema.t) :
  frames (introspectRows client tableRows schema).
Proof.
  revert schema. induction tableRows as [|row rest IH]; intros schema; cbn.
  - apply frames_ret.
  - destruct (Pg.get row "table_name"); try apply frames_throw.
    repeat frames_step.
Qed.

#[local] Hint Resolve frames_introspectRows : frames.

(** [execute] and [introspect] are the connection check followed by a
    computation that frames. *)
Lemma execute_after_connect (client : Pg.Client) (plan : Plan.t) :
  exists k : unit -> M ExecResult,
    (forall u, frames (k u)) /\
    execute client plan = connectIfNeeded client ≫= k.
Proof.
  unfold execute. eexists. split; [|reflexivity].
  intros u. cbv beta zeta. repeat frames_step.
Qed.

Lemma introspect_after_connect (client : Pg.Client) :
  exists k : unit -> M Schema.t,
    (forall u, frames (k u)) /\
    introspect client = connectIfNeeded client ≫= k.
Proof.
  unfold introspect. eexists. split; [|reflexivity].
  intros u. cbv beta. repeat frames_step.
Qed.

(** From a disconnected agent, a method that starts with the connection check
    calls [connect] first, and leaves the agent connected when the client
    accepts. *)
Lemma reconnects {A : Type} (client : Pg.Client) (k : unit -> M A) (a : Agent) :
  (forall u, frames (k u)) ->
  connected a = false ->
  (exists rest,
     calls (snd ((connectIfNeeded client ≫= k) a)) =
     calls a ++ Pg.CallConnect :: rest) /\
  (Pg.connect client (calls a) = None ->
   connected (snd ((connectIfNeeded client ≫= k) a)) = true).
Proof.
  intros Hk Hc. rewrite bind_run, connectIfNeeded_disconnected by done.
  destruct (Pg.connect client (calls a)) as [reason|] eqn:Hconn.
  - split; [by exists []|done].
  - destruct (Hk tt (connectedAgent a)) as [Hflag [rest Hrest]].
    split.
    + exists rest. rewrite Hrest. unfold connectedAgent. rewrite Hc. cbn.
      by rewrite <- app_assoc.
    + intros _. rewrite Hflag. apply connectedAgent_connected.
Qed.

(** ** The table-name map stays well formed *)

Lemma tableNameMapOk_empty : tableNameMapOk ∅.
Proof. intros key stored H. by rewrite lookup_empty in H. Qed.

Lemma tableNameMapOk_assign (m : gmap string string) (table : string) :
  tableNameMapOk m ->
  tableNameMapOk (Js.assign (Js.toLowerCase table) table m).
Proof.
  intros Hm key stored H. unfold Js.assign in H.
  case_decide as Hp; [by apply Hm|].
  destruct (decide (Js.toLowerCase table = key)) as [<-|Hne].
  - rewrite lookup_insert_eq in H. by injection H as <-.
  - rewrite lookup_insert_ne in H by done. by apply Hm.
Qed.

Lemma introspectRows_tableNameMapOk (client : Pg.Client)
    (tableRows : list Pg.Row) (schema : Schema.t) (a : Agent) :
  tableNameMapOk (tableNameMap a) ->
  tableNameMapOk (tableNameMap (snd (introspectRows client tableRows schema a))).
Proof.
  revert schema a. induction tableRows as [|row rest IH]; intros schema a Ha; cbn.
  - done.
  - destruct (Pg.get row "table_name"); try done.
    rewrite bind_run. cbn [getTableNameMap]. rewrite bind_run.
    cbn [setTableNameMap]. rewrite bind_run, clientQuery_run.
    destruct (Pg.query client _ _ _); cbn.
    + by apply tableNameMapOk_assign.
    + apply IH. cbn. by apply tableNameMapOk_assign.
Qed.

Lemma connectIfNeeded_tableNameMap (client : Pg.Client) (a : Agent) :
  tableNameMap (snd (connectIfNeeded client a)) = tableNameMap a.
Proof.
  destruct (connected a) eqn:Hc.
  - by rewrite connectIfNeeded_connected.
  - rewrite connectIfNeeded_disconnected by done.
    destruct (Pg.connect client (calls a)); [done|].
    apply connectedAgent_tableNameMap.
Qed.

Lemma introspect_tableNameMapOk (client : Pg.Client) (a : Agent) :
  tableNameMapOk (tableNameMap a) ->
  tableNameMapOk (tableNameMap (snd (introspect client a))).
Proof.
  intros Ha. unfold introspect. rewrite bind_run.
  pose proof (connectIfNeeded_tableNameMap client a) as Hm.
  destruct (connectIfNeeded client a) as [[e|[]] a1]; cbn in Hm.
  - cbn. by rewrite Hm.
  - rewrite bind_run, clientQuery_run.
    destruct (Pg.query client _ _ _) as [reason|tablesRes]; cbn.
    + by rewrite Hm.
    + rewrite bind_run. cbn. apply introspectRows_tableNameMapOk. cbn.
      apply tableNameMapOk_empty.
Qed.

Lemma execute_tableNameMap (client : Pg.Client) (plan : Plan.t) (a : Agent) :
  tableNameMap (snd (execute client plan a)) = tableNameMap a.
Proof.
  unfold execute. rewrite bind_run.
  pose proof (connectIfNeeded_tableNameMap client a) as Hm.
  destruct (connectIfNeeded client a) as [[e|[]] a1]; cbn in Hm; [done|].
  rewrite bind_run. destruct (Plan.table plan) as [requested|]; [|done].
  rewrite getActualTableName_run. cbv zeta.
  repeat case_decide; try destruct (Plan.values plan);
    rewrite ?bind_run, ?clientQuery_run; try done;
    by destruct (Pg.query client _ _ _).
Qed.

Lemma close_tableNameMap (client : Pg.Client) (a : Agent) :
  tableNameMap (snd (close client a)) = tableNameMap a.
Proof.
  destruct (connected a) eqn:Hc.
  - rewrite close_connected by done. by destruct (Pg.end_ client (calls a)).
  - by rewrite close_disconnected.
Qed.

(** ** Table-name resolution *)

(** The map of every state the agent reaches is well formed. *)
Lemma reachable_tableNameMapOk (client : Pg.Client) (a : Agent) :
  reachable client a -> tableNameMapOk (tableNameMap a).
Proof.
  induction 1 as [|a a' _ IH Hstep]; [apply tableNameMapOk_empty|].
  destruct Hstep.
  - by rewrite connectIfNeeded_tableNameMap.
  - by rewrite close_tableNameMap.
  - by apply introspect_tableNameMapOk.
  - by rewrite execute_tableNameMap.
Qed.

Lemma not_supported_drop : ~ supported (Some "drop").
Proof. intros [H|[H|[H|H]]]; discriminate H. Qed.

(** ** The claims *)

(** A supported operation, on an available connection: the one statement
    submitted has the quoted name of the agent's map as table identifier. *)
Lemma execute_tableClause (client : Pg.Client) (plan : Plan.t) (a : Agent)
    (requested : string) :
  supported (Plan.operation plan) ->
  Plan.table plan = Some requested ->
  (Plan.operation plan = Some "insert" \/ Plan.operation plan = Some "update" ->
   is_Some (Plan.values plan)) ->
  Ready client a ->
  exists text params,
    submits client text params a (execute client plan a) /\
    tableClause plan (quotedTableName a requested) text.
Proof.
  intros Hop Ht Hv Hr. destruct Hop as [Hop|[Hop|[Hop|Hop]]].
  - eexists _, _. split; [by apply (execute_select client plan a requested)|].
    left. split; [done|]. by eexists.
  - destruct Hv as [kvs Hv]; [by left|].
    eexists _, _. split; [by apply (execute_insert client plan a requested kvs)|].
    right; left. split; [done|]. by eexists.
  - destruct Hv as [kvs Hv]; [by right|].
    eexists _, _. split; [by apply (execute_update client plan a requested kvs)|].
    do 2 right; left. split; [done|]. by eexists.
  - eexists _, _. split; [by apply (execute_delete client plan a requested)|].
    do 3 right. split; [done|]. by eexists.
Qed.

(** What [execute] quotes for a request whose lowercased form has an entry of
    its own in the table-name map, the stored name not being the empty
    string: the stored name. *)
Lemma quotedTableName_own (a : Agent) (requested stored : string) :
  tableNameMap a !! Js.toLowerCase requested = Some stored ->
  stored <> EmptyString ->
  quotedTableName a requested = Js.dquote +:+ stored +:+ Js.dquote.
Proof.
  intros Hsome Hne. unfold quotedTableName, Js.read. rewrite Hsome. cbn.
  by rewrite decide_False.
Qed.

(** What [execute] quotes for a request whose lowercased form has no entry in
    the table-name map and names no property of [Object.prototype]: the
    request. *)
Lemma quotedTableName_missing (a : Agent) (requested : string) :
  tableNameMap a !! Js.toLowerCase requested = None ->
  Js.toLowerCase requested ∉ Js.objectPrototype ->
  quotedTableName a requested = Js.dquote +:+ requested +:+ Js.dquote.
Proof.
  intros Hnone Hout. unfold quotedTableName, Js.read.
  by rewrite Hnone, decide_False.
Qed.

(** What [execute] quotes for a request whose lowercased form is the name of
    a property of [Object.prototype], while the table-name map has no entry
    of its own under it: the inherited value, printed. *)
Lemma quotedTableName_inherited (a : Agent) (requested : string) :
  tableNameMap a !! Js.toLowerCase requested = None ->
  Js.toLowerCase requested ∈ Js.objectPrototype ->
  quotedTableName a requested =
  Js.dquote +:+ Js.render (Js.Builtin (Js.toLowerCase requested)) +:+ Js.dquote.
Proof.
  intros Hnone Hin. unfold quotedTableName, Js.read.
  by rewrite Hnone, decide_True.
Qed.

(** C1, on the code.  For a plan with a supported operation whose requested
    table name lowercases to [constructor], an agent whose table-name map has
    no entry under that key does not pass the requested name through: the
    read of the map finds the [constructor] of [Object.prototype], and the
    table identifier of the statement [execute] submits is the text of that
    function between double quotes. *)
Theorem execute_quotes_inherited_property (client : Pg.Client) (plan : Plan.t)
    (a : Agent) (requested : string) :
  supported (Plan.operation plan) ->
  Plan.table plan = Some requested ->
  (Plan.operation plan = Some "insert" \/ Plan.operation plan = Some "update" ->
   is_Some (Plan.values plan)) ->
  Ready client a ->
  Js.toLowerCase requested = "constructor" ->
  tableNameMap a !! "constructor" = None ->
  exists text params,
    submits client text params a (execute client plan a) /\
    tableClause plan
      (Js.dquote +:+ "function Object() { [native code] }" +:+ Js.dquote) text.
Proof.
  intros Hop Ht Hv Hr Hlow Hnone.
  destruct (execute_tableClause client plan a requested Hop Ht Hv Hr)
    as (text & params & Hsub & Hclause).
  exists text, params. split; [done|].
  rewrite quotedTableName_inherited in Hclause.
  - by rewrite Hlow in Hclause.
  - by rewrite Hlow.
  - rewrite Hlow. unfold Js.objectPrototype. by left.
Qed.

(** C2. A select plan with no [fields] (or an empty list) and no [where]
    compiles to exactly [SELECT * FROM "<table>" WHERE TRUE], with [<table>]
    the resolved table name, and the statement is run with no bound
    parameters. *)
Theorem execute_select_star (client : Pg.Client) (plan : Plan.t) (a : Agent)
    (requested : string) :
  Plan.operation plan = Some "select" ->
  Plan.table plan = Some requested ->
  Plan.fields plan = None \/ Plan.fields plan = Some [] ->
  Plan.where_ plan = None ->
  Ready client a ->
  submits client
    ("SELECT * FROM " +:+ quotedTableName a requested +:+ " WHERE TRUE")
    None a (execute client plan a).
Proof.
  intros Hop Ht Hf Hw Hr.
  pose proof (execute_select client plan a requested Hop Ht Hr) as H.
  rewrite Hw in H. by destruct Hf as [Hf|Hf]; rewrite Hf in H.
Qed.

(** C3. An insert plan compiles to
    [INSERT INTO "<table>" (k1, ..., kn) VALUES ($1, ..., $n) RETURNING *],
    with [k1..kn] the keys of [values] in enumeration order, and binds the
    values in that same order; [values = {a: 1, b: "x"}] gives the columns
    [(a, b)], the placeholders [($1, $2)] and the parameters [[1, "x"]]. *)
Theorem execute_insert_compiles (client : Pg.Client) (plan : Plan.t)
    (a : Agent) (requested : string) (kvs : list (string * Js.Value)) :
  Plan.operation plan = Some "insert" ->
  Plan.table plan = Some requested ->
  Plan.values plan = Some kvs ->
  Ready client a ->
  submits client
    ("INSERT INTO " +:+ quotedTableName a requested +:+
     " (" +:+ Js.join ", " (kvs.*1) +:+
     ") VALUES (" +:+ Js.join ", " (placeholders (length kvs)) +:+
     ") RETURNING *")
    (Some (kvs.*2)) a (execute client plan a) /\
  (kvs = [("a", Js.Num "1"); ("b", Js.Str "x")] ->
   submits client
     ("INSERT INTO " +:+ quotedTableName a requested +:+
      " (a, b) VALUES ($1, $2) RETURNING *")
     (Some [Js.Num "1"; Js.Str "x"]) a (execute client plan a)).
Proof.
  intros Hop Ht Hv Hr.
  pose proof (execute_insert client plan a requested kvs Hop Ht Hv Hr) as H.
  split; [exact H|]. intros ->. exact H.
Qed.

(** C4. An update plan with a [values] mapping and a [where] string compiles
    to [UPDATE "<table>" SET k1 = $1, ..., kn = $n WHERE <where> RETURNING *],
    one pair per key of [values] in enumeration order, the [where] text put
    in as it is, and binds the values positionally; [values = {a: 5}] with
    [where = "id = 1"] gives
    [UPDATE "<table>" SET a = $1 WHERE id = 1 RETURNING *] bound to [[5]]. *)
Theorem execute_update_compiles (client : Pg.Client) (plan : Plan.t)
    (a : Agent) (requested where_ : string) (kvs : list (string * Js.Value)) :
  Plan.operation plan = Some "update" ->
  Plan.table plan = Some requested ->
  Plan.values plan = Some kvs ->
  Plan.where_ plan = Some where_ ->
  Ready client a ->
  submits client
    ("UPDATE " +:+ quotedTableName a requested +:+
     " SET " +:+ Js.join ", " (assignments (kvs.*1)) +:+
     " WHERE " +:+ where_ +:+ " RETURNING *")
    (Some (kvs.*2)) a (execute client plan a) /\
  (kvs = [("a", Js.Num "5")] -> where_ = "id = 1" ->
   submits client
     ("UPDATE " +:+ quotedTableName a requested +:+
      " SET a = $1 WHERE id = 1 RETURNING *")
     (Some [Js.Num "5"]) a (execute client plan a)).
Proof.
  intros Hop Ht Hv Hw Hr.
  pose proof (execute_update client plan a requested kvs Hop Ht Hv Hr) as H.
  rewrite Hw in H. split; [exact H|]. intros -> ->. exact H.
Qed.

(** C5. A delete plan with a [where] string compiles to exactly
    [DELETE FROM "<table>" WHERE <where> RETURNING *], the [where] text put in
    as it is, and is run with no bound parameters; [where = "id = 1"] gives
    [DELETE FROM "<table>" WHERE id = 1 RETURNING *]. *)
Theorem execute_delete_compiles (client : Pg.Client) (plan : Plan.t)
    (a : Agent) (requested where_ : string) :
  Plan.operation plan = Some "delete" ->
  Plan.table plan = Some requested ->
  Plan.where_ plan = Some where_ ->
  Ready client a ->
  submits client
    ("DELETE FROM " +:+ quotedTableName a requested +:+
     " WHERE " +:+ where_ +:+ " RETURNING *")
    None a (execute client plan a) /\
  (where_ = "id = 1" ->
   submits client
     ("DELETE FROM " +:+ quotedTableName a requested +:+
      " WHERE id = 1 RETURNING *")
     None a (execute client plan a)).
Proof.
  intros Hop Ht Hw Hr.
  pose proof (execute_delete client plan a requested Hop Ht Hr) as H.
  rewrite Hw in H. split; [exact H|]. intros ->. exact H.
Qed.


Lemma falsy_present (x : option string) : Js.falsy x = false <-> present x.
Proof.
  unfold present. destruct x as [s|]; cbn.
  - rewrite bool_decide_eq_false. split.
    + intros Hs. by exists s.
    + intros (s' & [= <-] & Hs). done.
  - split; [done|]. intros (s & H & _). discriminate H.
Qed.

(** C7. [validate] answers [true] exactly when the [operation] and the
    [table] properties are both there and not empty, whatever the other
    properties are; it answers [true] for an operation outside the four and
    for a plan with neither [values] nor [where]. *)
Theorem validate_iff (plan : Plan.t) :
  (validate plan = true <->
   present (Plan.operation plan) /\ present (Plan.table plan)) /\
  (forall fields where_ values,
     validate
       (Plan.Build (Plan.operation plan) (Plan.table plan) fields where_ values)
     = validate plan) /\
  (forall operation table,
     operation <> EmptyString -> table <> EmptyString ->
     validate (Plan.Build (Some operation) (Some table) None None None) = true) /\
  validate dropUsers = true.
Proof.
  split; [|split; [|split]].
  - unfold validate. rewrite <- !falsy_present.
    destruct (Js.falsy (Plan.operation plan)), (Js.falsy (Plan.table plan));
      cbn; intuition congruence.
  - reflexivity.
  - intros operation table Ho Ht. unfold validate, Js.falsy. cbn.
    by rewrite !bool_decide_eq_false_2.
  - reflexivity.
Qed.

(** ** [introspect] over a database catalog *)

Lemma catalog_ready (db : InformationSchema.t) (a : Agent) :
  Ready (InformationSchema.client db) a.
Proof. right. reflexivity. Qed.

Lemma catalog_columns (db : InformationSchema.t) (history : list Pg.Call)
    (table : string) :
  Pg.query (InformationSchema.client db) history columnsQuery
    (Some [Js.Str table]) =
  inr (InformationSchema.selectColumns db (Js.Str table)).
Proof. reflexivity. Qed.

Lemma introspectRows_catalog_run (db : InformationSchema.t)
    (rs : list InformationSchema.Tables.row) (schema : Schema.t) (a : Agent) :
  introspectRows (InformationSchema.client db)
    (map (fun r => {[ "table_name" :=
                        Js.Str (InformationSchema.Tables.table_name r) ]})
       rs)
    schema a =
  (inr (foldl (addTable db) schema rs),
   {| connected := connected a;
      tableNameMap :=
        foldl addTableName (tableNameMap a)
          (map InformationSchema.Tables.table_name rs);
      calls :=
        calls a ++
        map columnsCall (map InformationSchema.Tables.table_name rs) |}).
Proof.
  revert schema a. induction rs as [|r rs IH]; intros schema a.
  - destruct a. cbn. by rewrite app_nil_r.
  - cbn [map introspectRows foldl]. unfold Pg.get at 1.
    rewrite lookup_singleton_eq. cbn [from_option id].
    rewrite bind_run. cbn [getTableNameMap]. rewrite bind_run.
    cbn [setTableNameMap]. rewrite bind_run, clientQuery_run, catalog_columns.
    rewrite IH. cbn. by rewrite <- app_assoc.
Qed.

Lemma introspect_catalog_run (db : InformationSchema.t) (a : Agent) :
  introspect (InformationSchema.client db) a =
  (inr (catalogSchema db),
   {| connected := true;
      tableNameMap := foldl addTableName ∅ (publicNames db);
      calls :=
        calls (connectedAgent a) ++
        Pg.CallQuery tablesQuery None :: map columnsCall (publicNames db) |}).
Proof.
  unfold introspect.
  rewrite bind_run, (connectIfNeeded_ready _ _ (catalog_ready db a)).
  rewrite bind_run, clientQuery_run.
  change (Pg.query (InformationSchema.client db) (calls (connectedAgent a))
            tablesQuery None)
    with (inr (A := string) (InformationSchema.selectTables db)).
  cbv iota. rewrite bind_run. cbn [setTableNameMap].
  unfold InformationSchema.selectTables. rewrite introspectRows_catalog_run.
  cbn. rewrite connectedAgent_connected. by rewrite <- app_assoc.
Qed.

(** Over a catalog, [introspect] answers the schema of the catalog. *)
Lemma introspect_catalog (db : InformationSchema.t) (a : Agent) :
  fst (introspect (InformationSchema.client db) a) = inr (catalogSchema db).
Proof. by rewrite introspect_catalog_run. Qed.

(** The keys of that answer are the names of the tables of [public], but for
    the name [__proto__], under which an assignment makes no key. *)
Lemma catalogSchema_dom (db : InformationSchema.t) :
  dom (catalogSchema db) =
  list_to_set (filter (fun n => n <> "__proto__") (publicNames db)).
Proof.
  unfold catalogSchema, publicNames.
  generalize (filter (fun r => InformationSchema.Tables.table_schema r = "public")
                (InformationSchema.tables db)).
  intros rs.
  assert (H : forall schema : Schema.t,
    dom (foldl (addTable db) schema rs) =
    dom schema ∪
    list_to_set
      (filter (fun n => n <> "__proto__")
         (map InformationSchema.Tables.table_name rs))).
  { induction rs as [|r rs IH]; intros schema.
    - cbn. by rewrite (right_id_L ∅ (∪)).
    - cbn [foldl map]. rewrite IH, filter_cons. unfold addTable at 1, Js.assign.
      destruct (decide (InformationSchema.Tables.table_name r = "__proto__"))
        as [Hp|Hp].
      + rewrite decide_False; [done|]. by intros ?.
      + rewrite decide_True by done. rewrite dom_insert_L.
        rewrite list_to_set_cons.
        by rewrite (comm_L (∪) {[_]} (dom schema)), <- (assoc_L (∪)). }
  by rewrite H, dom_empty_L, (left_id_L ∅ (∪)).
Qed.

(** C8, on the code.  With a table [users] in [public] and another [users] in
    the schema [audit], [introspect] answers a field mapping for [users] that
    holds [secret], a column of [audit.users]; no column of [public.users]
    has that name.  The query on [information_schema.columns] filters on the
    table name alone. *)
Theorem introspect_takes_columns_of_other_schemas :
  exists schema users,
    fst (introspect (InformationSchema.client twoSchemas) newAgent) = inr schema /\
    schema !! "users" = Some users /\
    Schema.fields users !! "secret" = Some {| Schema.type := Js.Str "text" |} /\
    Forall (fun r => InformationSchema.Columns.column_name r <> "secret")
      (InformationSchema.publicColumns twoSchemas "users").
Proof.
  eexists _, _. split; [vm_compute; reflexivity|].
  split; [vm_compute; reflexivity|].
  split; [vm_compute; reflexivity|].
  vm_compute. repeat constructor. discriminate.
Qed.

(** C9. The connection handle has two states.  [connectIfNeeded] leaves a
    connected agent as it is and calls nothing; on a disconnected agent it
    calls [connect] once and sets the flag; once it has gone through, a
    second call changes nothing.  [close] on a connected agent calls [end]
    and clears the flag, after which [execute] and [introspect] begin by
    calling [connect] again and set the flag anew; [close] on a disconnected
    agent does nothing. *)
Theorem connection_lifecycle (client : Pg.Client) (a : Agent) :
  (connected a = true -> connectIfNeeded client a = (inr tt, a)) /\
  (connected a = false ->
   Pg.connect client (calls a) = None ->
   connectIfNeeded client a =
     (inr tt, {| connected := true; tableNameMap := tableNameMap a;
                 calls := calls a ++ [Pg.CallConnect] |})) /\
  (forall a1,
     connectIfNeeded client a = (inr tt, a1) ->
     connected a1 = true /\ connectIfNeeded client a1 = (inr tt, a1)) /\
  (connected a = true ->
   Pg.end_ client (calls a) = None ->
   exists a1,
     close client a = (inr tt, a1) /\
     connected a1 = false /\
     tableNameMap a1 = tableNameMap a /\
     calls a1 = calls a ++ [Pg.CallEnd] /\
     (forall plan, exists rest,
        calls (snd (execute client plan a1)) =
        calls a1 ++ Pg.CallConnect :: rest) /\
     (exists rest,
        calls (snd (introspect client a1)) =
        calls a1 ++ Pg.CallConnect :: rest) /\
     (Pg.connect client (calls a1) = None ->
      (forall plan, connected (snd (execute client plan a1)) = true) /\
      connected (snd (introspect client a1)) = true)) /\
  (connected a = false -> close client a = (inr tt, a)).
Proof.
  split; [apply connectIfNeeded_connected|].
  split.
  { intros Hc Hconn. rewrite connectIfNeeded_disconnected by done.
    rewrite Hconn. unfold connectedAgent. by rewrite Hc. }
  split.
  { intros a1 Hrun. destruct (connected a) eqn:Hc.
    - rewrite connectIfNeeded_connected in Hrun by done.
      injection Hrun as <-. split; [done|]. by apply connectIfNeeded_connected.
    - rewrite connectIfNeeded_disconnected in Hrun by done.
      destruct (Pg.connect client (calls a)); [discriminate Hrun|].
      injection Hrun as <-. split; [apply connectedAgent_connected|].
      apply connectIfNeeded_connected, connectedAgent_connected. }
  split; [|apply close_disconnected].
  intros Hc Hend. rewrite close_connected by done. rewrite Hend.
  eexists. split; [reflexivity|]. cbn [connected tableNameMap calls].
  do 3 (split; [reflexivity|]).
  set (a1 := {| connected := false; tableNameMap := tableNameMap a;
                calls := calls a ++ [Pg.CallEnd] |}).
  assert (Hc1 : connected a1 = false) by reflexivity.
  change (calls a ++ [Pg.CallEnd]) with (calls a1).
  destruct (introspect_after_connect client) as (ki & Hki & ->).
  destruct (reconnects client ki a1 Hki Hc1) as [Hicalls Hiflag].
  split; [|split; [exact Hicalls|]].
  - intros plan.
    destruct (execute_after_connect client plan) as (ke & Hke & ->).
    by destruct (reconnects client ke a1 Hke Hc1) as [Hecalls _].
  - intros Hconn. split; [|by apply Hiflag].
    intros plan.
    destruct (execute_after_connect client plan) as (ke & Hke & ->).
    destruct (reconnects client ke a1 Hke Hc1) as [_ Heflag]. by apply Heflag.
Qed.

(** C10, amended.  For every delete plan, and every update plan that carries
    a [values] mapping, whose [where] is absent, [execute] raises nothing
    before it submits the query: the statement holds the text [undefined] as
    its WHERE clause, as in
    [UPDATE "<table>" SET a = $1 WHERE undefined RETURNING *], and is sent
    to the client.  The plan names a table and the connection is up or comes
    up. *)
Theorem execute_absent_where (client : Pg.Client) (plan : Plan.t) (a : Agent)
    (requested : string) :
  Plan.where_ plan = None ->
  Plan.table plan = Some requested ->
  Ready client a ->
  (Plan.operation plan = Some "delete" ->
   submits client
     ("DELETE FROM " +:+ quotedTableName a requested +:+
      " WHERE undefined RETURNING *")
     None a (execute client plan a)) /\
  (forall kvs,
     Plan.operation plan = Some "update" ->
     Plan.values plan = Some kvs ->
     submits client
       ("UPDATE " +:+ quotedTableName a requested +:+
        " SET " +:+ Js.join ", " (assignments (kvs.*1)) +:+
        " WHERE undefined RETURNING *")
       (Some (kvs.*2)) a (execute client plan a)) /\
  (Plan.operation plan = Some "update" ->
   Plan.values plan = Some [("a", Js.Num "5")] ->
   submits client
     ("UPDATE " +:+ quotedTableName a requested +:+
      " SET a = $1 WHERE undefined RETURNING *")
     (Some [Js.Num "5"]) a (execute client plan a)).
Proof.
  intros Hw Ht Hr. split; [|split].
  - intros Hop.
    pose proof (execute_delete client plan a requested Hop Ht Hr) as H.
    by rewrite Hw in H.
  - intros kvs Hop Hv.
    pose proof (execute_update client plan a requested kvs Hop Ht Hv Hr) as H.
    by rewrite Hw in H.
  - intros Hop Hv.
    pose proof (execute_update client plan a requested _ Hop Ht Hv Hr) as H.
    by rewrite Hw in H.
Qed.

(** ** The database name of a connection string *)

Lemma append_cons (c : ascii) (s t : string) :
  String c s +:+ t = String c (s +:+ t).
Proof. reflexivity. Qed.

Lemma append_empty (t : string) : EmptyString +:+ t = t.
Proof. reflexivity. Qed.

Ltac url_simpl :=
  rewrite ?append_cons, ?append_empty;
  cbn [DbUrl.segment DbUrl.matchUrl DbUrl.allInClass DbUrl.noQuestionMark
       DbUrl.noSlash DbUrl.atEnd].

Tactic Notation "url_simpl" "in" hyp(H) :=
  rewrite ?append_cons, ?append_empty in H;
  cbn [DbUrl.segment DbUrl.matchUrl DbUrl.allInClass DbUrl.noQuestionMark
       DbUrl.noSlash DbUrl.atEnd] in H.

Lemma segment_sound (s captured : string) :
  DbUrl.segment s = Some captured ->
  captured <> EmptyString /\
  DbUrl.allInClass captured = true /\
  exists suffix, s = captured +:+ suffix /\ DbUrl.atEnd suffix = true.
Proof.
  revert captured. induction s as [|c rest IH]; intros captured H; url_simpl in H.
  - discriminate H.
  - destruct (DbUrl.inClass c) eqn:Hc; [|discriminate H].
    destruct (DbUrl.segment rest) as [longer|] eqn:Hrest.
    + injection H as <-. destruct (IH longer eq_refl) as (_ & Hall & suffix & -> & Hend).
      split; [discriminate|]. split; [url_simpl; by rewrite Hc, Hall|].
      by exists suffix.
    + destruct (DbUrl.atEnd rest) eqn:Hend; [|discriminate H].
      injection H as <-. split; [discriminate|].
      split; [url_simpl; by rewrite Hc|]. by exists rest.
Qed.

Lemma atEnd_not_inClass (c : ascii) (rest : string) :
  DbUrl.atEnd (String c rest) = true -> DbUrl.inClass c = false.
Proof.
  url_simpl. intros H. unfold DbUrl.inClass. rewrite H. by rewrite orb_true_r.
Qed.

Lemma segment_complete (name suffix : string) :
  name <> EmptyString ->
  DbUrl.allInClass name = true ->
  DbUrl.atEnd suffix = true ->
  DbUrl.segment (name +:+ suffix) = Some name.
Proof.
  induction name as [|c rest IH]; intros Hne Hall Hend; [done|].
  url_simpl in Hall. apply andb_true_iff in Hall as [Hc Hall].
  url_simpl. rewrite Hc. destruct rest as [|c' rest'].
  - url_simpl. destruct suffix as [|q suffix']; url_simpl; [done|].
    rewrite (atEnd_not_inClass q suffix' Hend). url_simpl in Hend. by rewrite Hend.
  - by rewrite IH.
Qed.

(** A run of class characters that runs into a slash is no match, however
    many characters the group gives back. *)
Lemma segment_blocked (run tail : string) :
  DbUrl.allInClass run = true ->
  DbUrl.segment (run +:+ String "/" tail) = None.
Proof.
  induction run as [|c rest IH]; intros Hall; [done|].
  url_simpl in Hall. apply andb_true_iff in Hall as [Hc Hall].
  url_simpl. rewrite Hc, (IH Hall).
  destruct rest as [|c' rest']; url_simpl; [done|].
  url_simpl in Hall. apply andb_true_iff in Hall as [Hc' _].
  unfold DbUrl.inClass in Hc'. apply negb_true_iff, orb_false_iff in Hc' as [_ Hq].
  by rewrite Hq.
Qed.

(** Without a question mark, what follows a slash is a run of class
    characters up to the next slash. *)
Lemma run_to_slash (s tail : string) :
  DbUrl.noQuestionMark s = true ->
  exists run tail',
    DbUrl.allInClass run = true /\
    s +:+ String "/" tail = run +:+ String "/" tail'.
Proof.
  induction s as [|c rest IH]; intros Hq.
  - by exists EmptyString, tail.
  - url_simpl in Hq. apply andb_true_iff in Hq as [Hc Hq].
    destruct (Ascii.eqb c "/") eqn:Hs.
    + apply Ascii.eqb_eq in Hs as ->. by exists EmptyString, (rest +:+ String "/" tail).
    + destruct (IH Hq) as (run & tail' & Hall & Heq).
      exists (String c run), tail'. split.
      * url_simpl. rewrite Hall. unfold DbUrl.inClass. rewrite Hs.
        apply negb_true_iff in Hc. by rewrite Hc.
      * url_simpl. by rewrite Heq.
Qed.

Lemma matchUrl_sound (dbUrl captured : string) :
  DbUrl.matchUrl dbUrl = Some captured ->
  exists before suffix,
    dbUrl = before +:+ String "/" (captured +:+ suffix) /\
    DbUrl.atEnd suffix = true /\
    captured <> EmptyString /\
    DbUrl.allInClass captured = true.
Proof.
  induction dbUrl as [|c rest IH]; intros H; url_simpl in H; [discriminate H|].
  assert (Hrec : DbUrl.matchUrl rest = Some captured ->
                 exists before suffix,
                   String c rest = before +:+ String "/" (captured +:+ suffix) /\
                   DbUrl.atEnd suffix = true /\
                   captured <> EmptyString /\
                   DbUrl.allInClass captured = true).
  { intros Hm. destruct (IH Hm) as (before & suffix & -> & Hrest).
    by exists (String c before), suffix. }
  destruct (Ascii.eqb c "/") eqn:Hs; [|by apply Hrec].
  apply Ascii.eqb_eq in Hs as ->.
  destruct (DbUrl.segment rest) as [found|] eqn:Hseg; [|by apply Hrec].
  injection H as ->.
  destruct (segment_sound rest captured Hseg) as (Hne & Hall & suffix & -> & Hend).
  by exists EmptyString, suffix.
Qed.

(** X1. The database name the constructor reads off the connection string
    never holds a slash or a question mark.  When it is not empty, it stands
    in the connection string right after a slash, and is followed there by a
    question mark or by the end of the string. *)
Theorem dbName_sound (dbUrl : string) :
  DbUrl.allInClass (DbUrl.dbName dbUrl) = true /\
  (DbUrl.dbName dbUrl <> EmptyString ->
   exists before suffix,
     dbUrl = before +:+ String "/" (DbUrl.dbName dbUrl +:+ suffix) /\
     (suffix = EmptyString \/ exists rest, suffix = String "?" rest)).
Proof.
  unfold DbUrl.dbName.
  destruct (DbUrl.matchUrl dbUrl) as [captured|] eqn:Hm; [|done].
  destruct (matchUrl_sound dbUrl captured Hm)
    as (before & suffix & Heq & Hend & _ & Hall).
  split; [done|]. intros _. exists before, suffix. split; [done|].
  destruct suffix as [|q rest]; [by left|]. right. exists rest.
  url_simpl in Hend. by apply Ascii.eqb_eq in Hend as ->.
Qed.

(** X2. For a connection string with no question mark before its last path
    segment, the database name is that segment: the text between the last
    slash and the question mark that opens the options, or the end of the
    string.  The segment is not empty and holds no slash. *)
Theorem dbName_last_segment (before name suffix : string) :
  DbUrl.noQuestionMark before = true ->
  name <> EmptyString ->
  DbUrl.allInClass name = true ->
  DbUrl.atEnd suffix = true ->
  DbUrl.dbName (before +:+ String "/" (name +:+ suffix)) = name.
Proof.
  intros Hq Hne Hall Hend. unfold DbUrl.dbName.
  enough (DbUrl.matchUrl (before +:+ String "/" (name +:+ suffix)) = Some name)
    as -> by done.
  induction before as [|c rest IH].
  - url_simpl. by rewrite segment_complete.
  - url_simpl in Hq. apply andb_true_iff in Hq as [_ Hq].
    url_simpl. destruct (Ascii.eqb c "/"); [|by apply IH].
    assert (Hseg : DbUrl.segment (rest +:+ String "/" (name +:+ suffix)) = None).
    { destruct (run_to_slash rest (name +:+ suffix) Hq)
        as (run & tail' & Hrun & ->).
      by apply segment_blocked. }
    rewrite Hseg. by apply IH.
Qed.

(** X3. A connection string with no slash at all, or one that ends in a
    slash and holds no question mark, gives the empty database name: the
    pattern finds no segment to capture. *)
Theorem dbName_empty (dbUrl : string) :
  DbUrl.noSlash dbUrl = true \/
  (exists before,
     DbUrl.noQuestionMark before = true /\
     dbUrl = before +:+ String "/" EmptyString) ->
  DbUrl.dbName dbUrl = EmptyString.
Proof.
  intros H. unfold DbUrl.dbName.
  enough (DbUrl.matchUrl dbUrl = None) as -> by done.
  destruct H as [H|(before & Hq & ->)].
  - induction dbUrl as [|c rest IH]; [done|].
    url_simpl in H. apply andb_true_iff in H as [Hc H].
    url_simpl. apply negb_true_iff in Hc. rewrite Hc. by apply IH.
  - induction before as [|c rest IH]; [done|].
    url_simpl in Hq. apply andb_true_iff in Hq as [_ Hq].
    url_simpl. destruct (Ascii.eqb c "/"); [|by apply IH].
    assert (Hseg : DbUrl.segment (rest +:+ String "/" EmptyString) = None).
    { destruct (run_to_slash rest EmptyString Hq) as (run & tail' & Hrun & ->).
      by apply segment_blocked. }
    rewrite Hseg. by apply IH.
Qed.

(** ** The client is only called in the state it is in *)

Lemma queries_ret {A : Type} (x : A) : queries (mret (M := M) x).
Proof.
  intros a. split; [done|]. exists []. cbn. by rewrite app_nil_r.
Qed.

Lemma queries_throw {A : Type} (e : Exn) : queries (throw (A := A) e).
Proof.
  intros a. split; [done|]. exists []. cbn. by rewrite app_nil_r.
Qed.

Lemma queries_bind {A B : Type} (m : M A) (f : A -> M B) :
  queries m -> (forall x, queries (f x)) -> queries (m ≫= f).
Proof.
  intros Hm Hf a. rewrite bind_run.
  destruct (Hm a) as (Hc & rest & Hr & Hq).
  destruct (m a) as [[e|x] a1]; cbn in *.
  - split; [done|]. by exists rest.
  - destruct (Hf x a1) as (Hc' & rest' & Hr' & Hq'). split; [congruence|].
    exists (rest ++ rest'). split; [by rewrite Hr', Hr, app_assoc|].
    by apply Forall_app.
Qed.

Lemma queries_getTableNameMap : queries getTableNameMap.
Proof.
  intros a. split; [done|]. exists []. cbn. by rewrite app_nil_r.
Qed.

Lemma queries_setTableNameMap (m : gmap string string) :
  queries (setTableNameMap m).
Proof.
  intros a. split; [done|]. exists []. cbn. by rewrite app_nil_r.
Qed.

Lemma queries_clientQuery (client : Pg.Client) (text : string)
    (params : option (list Js.Value)) :
  queries (clientQuery client text params).
Proof.
  intros a. rewrite clientQuery_run. cbn. split; [done|].
  eexists. split; [done|]. by repeat constructor.
Qed.

Lemma queries_getActualTableName (requested : option string) :
  queries (getActualTableName requested).
Proof.
  destruct requested; cbn; [|apply queries_throw].
  apply queries_bind; [apply queries_getTableNameMap|].
  intros m. apply queries_ret.
Qed.

#[local] Hint Resolve queries_ret queries_throw queries_getTableNameMap
  queries_setTableNameMap queries_clientQuery queries_getActualTableName
  : queries.

Ltac queries_step :=
  match goal with
  | |- queries (_ ≫= _) => apply queries_bind; [|intros ?]
  | |- queries (if decide ?P then _ else _) => destruct (decide P)
  | |- queries (match ?x with _ => _ end) => destruct x
  | |- queries _ => solve [auto with queries]
  end.

Lemma queries_introspectRows (client : Pg.Client) (tableRows : list Pg.Row)
    (schema : Schema.t) :
  queries (introspectRows client tableRows schema).
Proof.
  revert schema. induction tableRows as [|row rest IH]; intros schema; cbn.
  - apply queries_ret.
  - destruct (Pg.get row "table_name"); try apply queries_throw.
    repeat queries_step.
Qed.

#[local] Hint Resolve queries_introspectRows : queries.

Lemma execute_connect_then_queries (client : Pg.Client) (plan : Plan.t) :
  exists k : unit -> M ExecResult,
    (forall u, queries (k u)) /\
    execute client plan = connectIfNeeded client ≫= k.
Proof.
  unfold execute. eexists. split; [|reflexivity].
  intros u. cbv beta zeta. repeat queries_step.
Qed.

Lemma introspect_connect_then_queries (client : Pg.Client) :
  exists k : unit -> M Schema.t,
    (forall u, queries (k u)) /\
    introspect client = connectIfNeeded client ≫= k.
Proof.
  unfold introspect. eexists. split; [|reflexivity].
  intros u. cbv beta. repeat queries_step.
Qed.

Lemma replay_app (client : Pg.Client) (past l1 l2 : list Pg.Call) (up : bool) :
  replay client past (l1 ++ l2) up =
  match replay client past l1 up with
  | Some up' => replay client (past ++ l1) l2 up'
  | None => None
  end.
Proof.
  revert past up. induction l1 as [|c l1 IH]; intros past up; cbn.
  - by rewrite app_nil_r.
  - destruct c, up; try done; rewrite IH, <- app_assoc; done.
Qed.

Lemma replay_queries (client : Pg.Client) (past rest : list Pg.Call) :
  Forall isQuery rest -> replay client past rest true = Some true.
Proof.
  intros H. revert past. induction H as [|c rest Hc _ IH]; intros past; [done|].
  destruct c; try done. cbn. apply IH.
Qed.

Lemma inStep_connectIfNeeded (client : Pg.Client) (a : Agent) :
  inStep client a -> inStep client (snd (connectIfNeeded client a)).
Proof.
  unfold inStep. intros Ha. destruct (connected a) eqn:Hc.
  - rewrite connectIfNeeded_connected by done. cbn. by rewrite Hc.
  - rewrite connectIfNeeded_disconnected by done.
    destruct (Pg.connect client (calls a)) as [reason|] eqn:Hconn;
      unfold connectedAgent; rewrite ?Hc; cbn;
      rewrite replay_app, Ha; cbn; rewrite Hconn, ?Hc.
    + by rewrite bool_decide_eq_false_2.
    + by rewrite bool_decide_eq_true_2.
Qed.

Lemma connectIfNeeded_returns_connected (client : Pg.Client) (a a1 : Agent) :
  connectIfNeeded client a = (inr tt, a1) -> connected a1 = true.
Proof.
  intros H. destruct (connected a) eqn:Hc.
  - rewrite connectIfNeeded_connected in H by done. by injection H as <-.
  - rewrite connectIfNeeded_disconnected in H by done.
    destruct (Pg.connect client (calls a)); [discriminate H|].
    injection H as <-. apply connectedAgent_connected.
Qed.

Lemma inStep_queries {A : Type} (client : Pg.Client) (m : M A) (a : Agent) :
  queries m -> connected a = true -> inStep client a ->
  inStep client (snd (m a)).
Proof.
  unfold inStep. intros Hm Hc Ha.
  destruct (Hm a) as (Hflag & rest & Hrest & Hq).
  rewrite Hrest, Hflag, replay_app, Ha, Hc. by apply replay_queries.
Qed.

Lemma inStep_connect_then_queries {A : Type} (client : Pg.Client)
    (k : unit -> M A) (a : Agent) :
  (forall u, queries (k u)) ->
  inStep client a ->
  inStep client (snd ((connectIfNeeded client ≫= k) a)).
Proof.
  intros Hk Ha. rewrite bind_run.
  pose proof (inStep_connectIfNeeded client a Ha) as H1.
  destruct (connectIfNeeded client a) as [[e|[]] a1] eqn:Hrun; [done|].
  apply inStep_queries; [apply Hk| |done].
  by apply (connectIfNeeded_returns_connected client a).
Qed.

Lemma inStep_close (client : Pg.Client) (a : Agent) :
  inStep client a -> inStep client (snd (close client a)).
Proof.
  unfold inStep. intros Ha. destruct (connected a) eqn:Hc.
  - rewrite close_connected by done.
    destruct (Pg.end_ client (calls a)) as [reason|] eqn:Hend; cbn;
      rewrite replay_app, Ha; cbn; rewrite Hend, ?Hc.
    + by rewrite bool_decide_eq_false_2.
    + by rewrite bool_decide_eq_true_2.
  - rewrite close_disconnected by done. cbn. by rewrite Hc.
Qed.

(** X4. In every state the agent reaches, the history of its calls on the
    client replays without a fault to the [connected] flag: the agent asks
    for a connection only when it holds none, ends one and queries only
    while it holds one, and its flag is true exactly when the last
    connection it was granted has not been ended. *)
Theorem reachable_inStep (client : Pg.Client) (a : Agent) :
  reachable client a ->
  replay client [] (calls a) false = Some (connected a).
Proof.
  induction 1 as [|a a' _ IH Hstep]; [done|].
  change (inStep client a) in IH. change (inStep client a').
  destruct Hstep.
  - by apply inStep_connectIfNeeded.
  - by apply inStep_close.
  - destruct (introspect_connect_then_queries client) as (k & Hk & ->).
    by apply inStep_connect_then_queries.
  - destruct (execute_connect_then_queries client plan) as (k & Hk & ->).
    by apply inStep_connect_then_queries.
Qed.

(** ** A whole run of [introspect] over a catalog *)

Lemma lookup_foldl_addTableName (m : gmap string string) (names : list string)
    (key : string) :
  foldl addTableName m names !! key =
  if decide (key = "__proto__") then m !! key
  else match lastNamed key names with
       | Some name => Some name
       | None => m !! key
       end.
Proof.
  revert m. induction names as [|n names IH]; intros m.
  - cbn. by case_decide.
  - cbn [foldl]. rewrite IH. unfold lastNamed. rewrite filter_cons.
    unfold addTableName, Js.assign.
    destruct (decide (key = "__proto__")) as [Hk|Hk].
    + case_decide; [done|]. rewrite lookup_insert_ne; [done|]. congruence.
    + destruct (decide (Js.toLowerCase n = key)) as [Hn|Hn].
      * rewrite last_cons. destruct (last _); [done|].
        rewrite decide_False by congruence. by rewrite Hn, lookup_insert_eq.
      * destruct (last _); [done|]. case_decide; [done|].
        by rewrite lookup_insert_ne.
Qed.

(** X5. Over a database catalog, [introspect] makes, after the connection
    attempt if one is due, the table query and then one column query for
    each table of the schema [public], in the order of the catalog and bound
    to the table's name: nothing else reaches the client. *)
Theorem introspect_calls (db : InformationSchema.t) (a : Agent) :
  calls (snd (introspect (InformationSchema.client db) a)) =
  calls a ++ connectionCalls a ++
  Pg.CallQuery tablesQuery None :: map columnsCall (publicNames db).
Proof.
  rewrite introspect_catalog_run. cbn.
  unfold connectedAgent, connectionCalls.
  destruct (connected a); cbn; [done|]. by rewrite <- app_assoc.
Qed.

(** X6. After [introspect] over a database catalog, the table-name map holds
    under a key the last table of [public] whose lowercased name is that
    key, and nothing under a key no table of [public] lowercases to: what
    the map held before is gone.  It holds nothing under [__proto__], where
    the assignment of a string makes no property. *)
Theorem introspect_rebuilds_tableNameMap (db : InformationSchema.t)
    (a : Agent) (key : string) :
  tableNameMap (snd (introspect (InformationSchema.client db) a)) !! key =
  if decide (key = "__proto__") then None
  else lastNamed key (publicNames db).
Proof.
  rewrite introspect_catalog_run. cbn.
  rewrite lookup_foldl_addTableName, lookup_empty.
  case_decide; [done|]. by destruct (lastNamed key (publicNames db)).
Qed.

(** X7. Over a database catalog, the schema [introspect] answers does not
    depend on the state of the agent: its keys are the names of the tables
    of [public] other than [__proto__], a name under which the assignment
    makes no key, and a second run right after the first answers the same
    schema again. *)
Theorem introspect_fresh (db : InformationSchema.t) (a : Agent) :
  fst (introspect (InformationSchema.client db) a) = inr (catalogSchema db) /\
  dom (catalogSchema db) =
    list_to_set (filter (fun n => n <> "__proto__") (publicNames db)) /\
  fst (introspect (InformationSchema.client db)
         (snd (introspect (InformationSchema.client db) a))) =
  fst (introspect (InformationSchema.client db) a).
Proof.
  split; [apply introspect_catalog|].
  split; [apply catalogSchema_dom|by rewrite !introspect_catalog].
Qed.

Lemma lookup_catalogSchema_from (db : InformationSchema.t)
    (rs : list InformationSchema.Tables.row) (schema : Schema.t)
    (table : string) :
  table <> "__proto__" ->
  foldl (addTable db) schema rs !! table =
  if decide (table ∈ map InformationSchema.Tables.table_name rs) then
    Some (catalogEntry db table)
  else schema !! table.
Proof.
  intros Hp. revert schema. induction rs as [|r rs IH]; intros schema.
  - cbn. case_decide as H; [|done]. by apply elem_of_nil in H.
  - cbn [foldl map]. rewrite IH.
    destruct (decide (table ∈ map InformationSchema.Tables.table_name rs))
      as [Hin|Hout].
    + rewrite decide_True; [done|]. by apply elem_of_cons; right.
    + unfold addTable, Js.assign.
      destruct (decide (InformationSchema.Tables.table_name r = table))
        as [<-|Hne].
      * rewrite decide_False by done.
        rewrite lookup_insert_eq, decide_True; [done|]. by apply elem_of_cons; left.
      * rewrite (decide_False (P := table ∈ _ :: _)).
        2: { intros [?|?]%elem_of_cons; congruence. }
        case_decide; [done|]. by rewrite lookup_insert_ne.
Qed.

Lemma lookup_catalogSchema_proto (db : InformationSchema.t)
    (rs : list InformationSchema.Tables.row) (schema : Schema.t) :
  foldl (addTable db) schema rs !! "__proto__" = schema !! "__proto__".
Proof.
  revert schema. induction rs as [|r rs IH]; intros schema; [done|].
  cbn [foldl]. rewrite IH. unfold addTable, Js.assign.
  case_decide as Hp; [done|]. by rewrite lookup_insert_ne.
Qed.

Lemma lookup_reduceColumns_from (cs : list InformationSchema.Columns.row)
    (acc : gmap string Schema.Field) (column : string) :
  foldl
    (fun acc col =>
       Js.assign (Js.toString (Pg.get col "column_name"))
         {| Schema.type := Pg.get col "data_type" |} acc)
    acc
    (map (fun r => {[ "column_name" := Js.Str (InformationSchema.Columns.column_name r);
                      "data_type" := Js.Str (InformationSchema.Columns.data_type r) ]})
       cs) !! column =
  if decide (column = "__proto__") then acc !! column
  else match last (filter (fun r => InformationSchema.Columns.column_name r = column) cs) with
       | Some r => Some (fieldOf r)
       | None => acc !! column
       end.
Proof.
  revert acc. induction cs as [|r cs IH]; intros acc.
  - cbn. by case_decide.
  - cbn [map foldl]. rewrite IH, filter_cons.
    assert (Hname : Pg.get
              {[ "column_name" := Js.Str (InformationSchema.Columns.column_name r);
                 "data_type" := Js.Str (InformationSchema.Columns.data_type r) ]}
              "column_name" = Js.Str (InformationSchema.Columns.column_name r)).
    { unfold Pg.get. by rewrite lookup_insert_eq. }
    assert (Htype : Pg.get
              {[ "column_name" := Js.Str (InformationSchema.Columns.column_name r);
                 "data_type" := Js.Str (InformationSchema.Columns.data_type r) ]}
              "data_type" = Js.Str (InformationSchema.Columns.data_type r)).
    { unfold Pg.get. rewrite lookup_insert_ne by done.
      by rewrite lookup_singleton_eq. }
    rewrite Hname, Htype. cbn [Js.toString]. unfold Js.assign.
    destruct (decide (column = "__proto__")) as [Hk|Hk].
    + case_decide; [done|]. rewrite lookup_insert_ne; [done|]. congruence.
    + destruct (decide (InformationSchema.Columns.column_name r = column))
        as [Hc|Hc].
      * rewrite last_cons. destruct (last _); [done|].
        rewrite decide_False by congruence. by rewrite Hc, lookup_insert_eq.
      * destruct (last _); [done|]. case_decide; [done|].
        by rewrite lookup_insert_ne.
Qed.

(** X8. Over a database catalog, the schema [introspect] answers has an
    entry for a name exactly when a table of [public] bears it and the name
    is not [__proto__].  In that entry a column name other than [__proto__]
    maps to the data type of the last row of [information_schema.columns]
    with that table name and that column name, in whatever schema the row's
    table lies; [__proto__] is no key of the entry. *)
Theorem introspect_schema_entries (db : InformationSchema.t) (a : Agent)
    (table : string) :
  exists schema,
    fst (introspect (InformationSchema.client db) a) = inr schema /\
    (table ∈ publicNames db ->
     table <> "__proto__" ->
     exists entry,
       schema !! table = Some entry /\
       forall column,
         Schema.fields entry !! column =
         if decide (column = "__proto__") then None
         else fieldOf <$> lastColumn db table column) /\
    (table ∉ publicNames db \/ table = "__proto__" -> schema !! table = None).
Proof.
  exists (catalogSchema db). split; [apply introspect_catalog|].
  unfold catalogSchema, publicNames. split.
  - intros Hin Hp. rewrite lookup_catalogSchema_from by done.
    rewrite decide_True by done. eexists. split; [done|].
    intros column. unfold catalogEntry. cbn [Schema.fields].
    unfold reduceColumns, lastColumn, InformationSchema.selectColumns.
    rewrite lookup_reduceColumns_from, lookup_empty.
    case_decide; [done|]. by destruct (last _).
  - intros [Hout| ->].
    + destruct (decide (table = "__proto__")) as [->|Hp].
      * by rewrite lookup_catalogSchema_proto.
      * rewrite lookup_catalogSchema_from by done.
        by rewrite decide_False, lookup_empty.
    + by rewrite lookup_catalogSchema_proto.
Qed.

(** ** Failures of [introspect] *)

Lemma introspectRows_entries (client : Pg.Client) (tableRows : list Pg.Row)
    (schema : Schema.t) (a : Agent) (key stored : string) :
  tableNameMap (snd (introspectRows client tableRows schema a)) !! key =
    Some stored ->
  tableNameMap a !! key = Some stored \/ fromRows tableRows key stored.
Proof.
  revert schema a. induction tableRows as [|row rest IH]; intros schema a; cbn.
  - by left.
  - destruct (Pg.get row "table_name") as [| | | |table] eqn:Hrow;
      try (by left).
    rewrite bind_run. cbn [getTableNameMap]. rewrite bind_run.
    cbn [setTableNameMap]. rewrite bind_run, clientQuery_run.
    assert (Hhere : forall m : gmap string string,
              Js.assign (Js.toLowerCase table) table m !! key = Some stored ->
              m !! key = Some stored \/ fromRows (row :: rest) key stored).
    { intros m H. unfold Js.assign in H. case_decide; [by left|].
      destruct (decide (Js.toLowerCase table = key)) as [<-|Hne].
      - rewrite lookup_insert_eq in H. injection H as <-. right.
        exists row. split; [by left|done].
      - rewrite lookup_insert_ne in H by done. by left. }
    destruct (Pg.query client _ _ _); cbn.
    + apply Hhere.
    + intros [H|(r & Hr & Hget & Hkey)]%IH.
      * by apply Hhere.
      * right. exists r. split; [by right|done].
Qed.

(** X9. [introspect] and the table-name map when a query fails.  When the
    client rejects the table query, [introspect] raises the rejection and
    the map stays as it was.  Once the table query has answered, every entry
    of the map comes from a row of that answer, also when a later column
    query is rejected or a row has no table name: the entries the map held
    before are gone. *)
Theorem introspect_map_on_failure (client : Pg.Client) (a : Agent) :
  Ready client a ->
  (forall reason,
     Pg.query client (calls (connectedAgent a)) tablesQuery None = inl reason ->
     fst (introspect client a) = inl (Rejected reason) /\
     tableNameMap (snd (introspect client a)) = tableNameMap a) /\
  (forall tableRows key stored,
     Pg.query client (calls (connectedAgent a)) tablesQuery None = inr tableRows ->
     tableNameMap (snd (introspect client a)) !! key = Some stored ->
     fromRows tableRows key stored).
Proof.
  intros Hr. unfold introspect.
  rewrite bind_run, (connectIfNeeded_ready _ _ Hr), bind_run, clientQuery_run.
  split.
  - intros reason ->. cbn. split; [done|]. apply connectedAgent_tableNameMap.
  - intros tableRows key stored ->. cbv iota. rewrite bind_run.
    cbn [setTableNameMap]. intros [H|H]%introspectRows_entries; [|done].
    cbn in H. by rewrite lookup_empty in H.
Qed.

(** ** The ways [execute] fails *)

(** The outcome of a run that submits a query is the client's answer to it:
    rows, or a rejection. *)
Lemma submits_outcome (client : Pg.Client) (text : string)
    (params : option (list Js.Value)) (a : Agent)
    (out : (Exn + ExecResult) * Agent) :
  submits client text params a out ->
  fst out <> inl TypeError /\ forall msg, fst out <> inl (Error msg).
Proof.
  intros [_ ->]. by destruct (Pg.query client _ _ _).
Qed.

(** [execute], case by case, on a connection that is up or comes up. *)
Lemma execute_cases (client : Pg.Client) (plan : Plan.t) (a : Agent) :
  Ready client a ->
  (Plan.table plan = None /\
   execute client plan a = (inl TypeError, connectedAgent a)) \/
  (Plan.table plan <> None /\
   (Plan.operation plan = Some "insert" \/ Plan.operation plan = Some "update") /\
   Plan.values plan = None /\
   execute client plan a = (inl TypeError, connectedAgent a)) \/
  (Plan.table plan <> None /\
   ~ supported (Plan.operation plan) /\
   execute client plan a =
     (inl (Error "Unsupported operation"), connectedAgent a)) \/
  (Plan.table plan <> None /\
   supported (Plan.operation plan) /\
   (Plan.operation plan = Some "insert" \/ Plan.operation plan = Some "update" ->
    Plan.values plan <> None) /\
   exists text params, submits client text params a (execute client plan a)).
Proof.
  intros Hr. destruct (Plan.table plan) as [requested|] eqn:Ht.
  2: { left. split; [done|]. unfold execute.
       rewrite bind_run, (connectIfNeeded_ready _ _ Hr), bind_run, Ht.
       by rewrite getActualTableName_missing. }
  right.
  destruct (decide (Plan.operation plan = Some "select")) as [Hop|Hsel].
  { do 2 right. split; [done|]. split; [by left|]. split; [intros [?|?]; congruence|].
    eexists _, _. by apply (execute_select client plan a requested). }
  destruct (decide (Plan.operation plan = Some "delete")) as [Hop|Hdel].
  { do 2 right. split; [done|]. split; [by do 3 right|].
    split; [intros [?|?]; congruence|].
    eexists _, _. by apply (execute_delete client plan a requested). }
  assert (Hmissing : Plan.values plan = None ->
            Plan.operation plan = Some "insert" \/
            Plan.operation plan = Some "update" ->
            execute client plan a = (inl TypeError, connectedAgent a)).
  { intros Hv Hop. unfold execute.
    rewrite bind_run, (connectIfNeeded_ready _ _ Hr).
    rewrite bind_run, Ht, getActualTableName_run. cbv zeta.
    destruct Hop as [Hop|Hop]; rewrite Hop, Hv.
    - rewrite decide_False by done. by rewrite decide_True.
    - do 2 rewrite decide_False by done. by rewrite decide_True. }
  destruct (decide (Plan.operation plan = Some "insert")) as [Hop|Hins].
  { destruct (Plan.values plan) as [kvs|] eqn:Hv.
    - do 2 right. split; [done|]. split; [by right; left|]. split; [done|].
      eexists _, _. by apply (execute_insert client plan a requested kvs).
    - left. split; [done|]. split; [by left|]. split; [done|].
      apply Hmissing; [done|by left]. }
  destruct (decide (Plan.operation plan = Some "update")) as [Hop|Hupd].
  { destruct (Plan.values plan) as [kvs|] eqn:Hv.
    - do 2 right. split; [done|]. split; [by do 2 right; left|]. split; [done|].
      eexists _, _. by apply (execute_update client plan a requested kvs).
    - left. split; [done|]. split; [by right|]. split; [done|].
      apply Hmissing; [done|by right]. }
  right; left. split; [done|]. split; [unfold supported; tauto|].
  unfold execute. rewrite bind_run, (connectIfNeeded_ready _ _ Hr).
  rewrite bind_run, Ht, getActualTableName_run. cbv zeta.
  by do 4 rewrite decide_False by done.
Qed.

(** X10. The exceptions of [execute] on a connection that is up or comes
    up.  It raises a [TypeError] exactly when the plan names no table, or is
    an insert or an update without a [values] mapping.  It raises an [Error]
    exactly when the plan names a table and its operation is none of the
    four, and the message is then [Unsupported operation].  In both cases no
    query has reached the client. *)
Theorem execute_exceptions (client : Pg.Client) (plan : Plan.t) (a : Agent) :
  Ready client a ->
  (fst (execute client plan a) = inl TypeError <->
   Plan.table plan = None \/
   ((Plan.operation plan = Some "insert" \/ Plan.operation plan = Some "update") /\
    Plan.values plan = None)) /\
  (forall msg,
     fst (execute client plan a) = inl (Error msg) <->
     msg = "Unsupported operation" /\
     Plan.table plan <> None /\
     ~ supported (Plan.operation plan)) /\
  (fst (execute client plan a) = inl TypeError \/
   (exists msg, fst (execute client plan a) = inl (Error msg)) ->
   calls (snd (execute client plan a)) = calls a ++ connectionCalls a).
Proof.
  intros Hr.
  assert (Hcalls : calls (connectedAgent a) = calls a ++ connectionCalls a).
  { unfold connectedAgent, connectionCalls.
    destruct (connected a); [by rewrite app_nil_r|done]. }
  destruct (execute_cases client plan a Hr)
    as [[Ht Hrun]|[(Ht & Hop & Hv & Hrun)|[(Ht & Hop & Hrun)|(Ht & Hop & Hv & Hsub)]]].
  - rewrite Hrun. cbn. split; [split; [by left|done]|].
    split; [|done]. intros msg. split; [done|]. by intros (_ & ? & _).
  - rewrite Hrun. cbn. split; [split; [by right|done]|].
    split; [|done]. intros msg. split; [done|]. intros (_ & _ & Hn).
    destruct Hn. destruct Hop as [Hop|Hop]; unfold supported; tauto.
  - rewrite Hrun. cbn. split.
    { split; [done|]. intros [?|[Hs _]]; [done|].
      destruct Hop. unfold supported. tauto. }
    split; [|done]. intros msg. split; [by intros [= <-]|]. by intros (-> & _).
  - destruct Hsub as (text & params & Hsub).
    destruct (submits_outcome _ _ _ _ _ Hsub) as [Hty Herr].
    split.
    { split; [done|]. intros [?|[Hs Hnone]]; [done|]. by destruct (Hv Hs). }
    split.
    { intros msg. split; [by intros ?%Herr|]. by intros (_ & _ & ?). }
    intros [?|[msg ?%Herr]]; done.
Qed.

(** X11. [validate] before [execute].  For a plan [validate] accepts, on a
    connection that is up or comes up, [execute] reaches the [switch]: it
    raises the unsupported-operation error when the operation is none of the
    four, a [TypeError] exactly when the plan is an insert or an update
    without a [values] mapping, and otherwise submits one query. *)
Theorem validate_then_execute (client : Pg.Client) (plan : Plan.t) (a : Agent) :
  validate plan = true ->
  Ready client a ->
  (~ supported (Plan.operation plan) ->
   fst (execute client plan a) = inl (Error "Unsupported operation")) /\
  (fst (execute client plan a) = inl TypeError <->
   (Plan.operation plan = Some "insert" \/ Plan.operation plan = Some "update") /\
   Plan.values plan = None) /\
  (supported (Plan.operation plan) ->
   fst (execute client plan a) <> inl TypeError ->
   exists text params, submits client text params a (execute client plan a)).
Proof.
  intros Hv Hr.
  assert (Ht : Plan.table plan <> None).
  { unfold validate in Hv.
    destruct (Js.falsy (Plan.operation plan)); [done|].
    destruct (Plan.table plan); [done|]. cbn in Hv. done. }
  destruct (execute_cases client plan a Hr)
    as [[Ht' _]|[(_ & Hop & Hnone & Hrun)|[(_ & Hop & Hrun)|(_ & Hop & Hval & Hsub)]]].
  - done.
  - rewrite Hrun. cbn. split; [|split; [done|done]].
    intros Hn. destruct Hn. destruct Hop as [Hop|Hop]; unfold supported; tauto.
  - rewrite Hrun. cbn. split; [done|]. split; [|done].
    split; [done|]. intros [Hs _]. destruct Hop. unfold supported. tauto.
  - destruct Hsub as (text & params & Hsub).
    destruct (submits_outcome _ _ _ _ _ Hsub) as [Hty _].
    split; [done|]. split; [|by eauto].
    split; [done|]. intros [Hs Hnone]. by destruct (Hval Hs).
Qed.

(** ** More of the compiler *)

(** X12. A select plan with a non-empty [fields] list and a [where] string
    compiles to [SELECT f1, ..., fn FROM "<table>" WHERE <where>], the fields
    joined as they are and the [where] text put in as it is, except that an
    empty [where] string is replaced by [TRUE]; the statement is run with no
    bound parameters. *)
Theorem execute_select_fields_where (client : Pg.Client) (plan : Plan.t)
    (a : Agent) (requested f where_ : string) (fs : list string) :
  Plan.operation plan = Some "select" ->
  Plan.table plan = Some requested ->
  Plan.fields plan = Some (f :: fs) ->
  Plan.where_ plan = Some where_ ->
  Ready client a ->
  submits client
    ("SELECT " +:+ Js.join ", " (f :: fs) +:+
     " FROM " +:+ quotedTableName a requested +:+
     " WHERE " +:+ (if decide (where_ = EmptyString) then "TRUE" else where_))
    None a (execute client plan a).
Proof.
  intros Hop Ht Hf Hw Hr.
  pose proof (execute_select client plan a requested Hop Ht Hr) as H.
  by rewrite Hf, Hw in H.
Qed.

(** X13. An insert or an update whose [values] mapping is empty raises
    nothing: [execute] submits [INSERT INTO "<table>" () VALUES () RETURNING *],
    or an [UPDATE] whose [SET] list is empty, with an empty array of
    parameters. *)
Theorem execute_empty_values (client : Pg.Client) (plan : Plan.t) (a : Agent)
    (requested : string) :
  Plan.table plan = Some requested ->
  Plan.values plan = Some [] ->
  Ready client a ->
  (Plan.operation plan = Some "insert" ->
   submits client
     ("INSERT INTO " +:+ quotedTableName a requested +:+
      " () VALUES () RETURNING *")
     (Some []) a (execute client plan a)) /\
  (Plan.operation plan = Some "update" ->
   submits client
     ("UPDATE " +:+ quotedTableName a requested +:+
      " SET  WHERE " +:+ Js.interpolate (Plan.where_ plan) +:+ " RETURNING *")
     (Some []) a (execute client plan a)).
Proof.
  intros Ht Hv Hr. split; intros Hop.
  - exact (execute_insert client plan a requested [] Hop Ht Hv Hr).
  - exact (execute_update client plan a requested [] Hop Ht Hv Hr).
Qed.

(** X14. Positional binding.  In the statement [execute] submits for an
    insert or an update, the key at index [i] of the [values] mapping is the
    column at index [i], it is given the placeholder [$(i+1)], and the
    parameter bound at index [i] is that key's own value; columns,
    placeholders and parameters are as many as the keys, and the
    placeholders are pairwise distinct. *)
Theorem positional_binding (client : Pg.Client) (plan : Plan.t) (a : Agent)
    (requested : string) (kvs : list (string * Js.Value)) :
  Plan.table plan = Some requested ->
  Plan.values plan = Some kvs ->
  Ready client a ->
  (Plan.operation plan = Some "insert" ->
   exists columns targets params,
     submits client
       ("INSERT INTO " +:+ quotedTableName a requested +:+
        " (" +:+ Js.join ", " columns +:+
        ") VALUES (" +:+ Js.join ", " targets +:+ ") RETURNING *")
       (Some params) a (execute client plan a) /\
     length columns = length kvs /\
     length targets = length kvs /\
     length params = length kvs /\
     NoDup targets /\
     forall i key value,
       kvs !! i = Some (key, value) ->
       columns !! i = Some key /\
       targets !! i = Some ("$" +:+ pretty (S i)) /\
       params !! i = Some value) /\
  (Plan.operation plan = Some "update" ->
   exists sets params,
     submits client
       ("UPDATE " +:+ quotedTableName a requested +:+
        " SET " +:+ Js.join ", " sets +:+
        " WHERE " +:+ Js.interpolate (Plan.where_ plan) +:+ " RETURNING *")
       (Some params) a (execute client plan a) /\
     length sets = length kvs /\
     length params = length kvs /\
     forall i key value,
       kvs !! i = Some (key, value) ->
       sets !! i = Some (key +:+ " = $" +:+ pretty (S i)) /\
       params !! i = Some value).
Proof.
  intros Ht Hv Hr.
  assert (Htargets : forall i key value,
            kvs !! i = Some (key, value) ->
            placeholders (length kvs) !! i = Some ("$" +:+ pretty (S i))).
  { intros i key value Hi. rewrite <- (length_fmap fst kvs).
    rewrite <- imap_placeholders, list_lookup_imap, list_lookup_fmap, Hi. cbn.
    unfold Js.placeholder. by replace (i + 1)%nat with (S i) by lia. }
  split; intros Hop.
  - exists (kvs.*1), (placeholders (length kvs)), (kvs.*2).
    split; [exact (execute_insert client plan a requested kvs Hop Ht Hv Hr)|].
    rewrite !length_fmap. unfold placeholders at 1. rewrite length_map, length_seq.
    do 3 (split; [done|]). split.
    + unfold placeholders. apply NoDup_fmap_2_strong; [|apply NoDup_seq].
      intros x y _ _ H. apply (inj (String.append "$")) in H.
      by apply (inj pretty) in H.
    + intros i key value Hi. rewrite !list_lookup_fmap, Hi.
      split; [done|]. split; [|done]. by apply (Htargets i key value).
  - exists (assignments (kvs.*1)), (kvs.*2).
    split; [exact (execute_update client plan a requested kvs Hop Ht Hv Hr)|].
    rewrite <- imap_assignments, length_imap, !length_fmap.
    do 2 (split; [done|]).
    intros i key value Hi.
    rewrite list_lookup_imap, !list_lookup_fmap, Hi. cbn.
    unfold Js.placeholder. by replace (i + 1)%nat with (S i) by lia.
Qed.

(** ** Resolution of table names *)

(** X15. In every state the agent reaches, each key of the table-name map
    is the lowercased form of the name stored under it, and no key is
    [__proto__]. *)
Theorem tableNameMap_keys_lowercase (client : Pg.Client) (a : Agent)
    (key stored : string) :
  reachable client a ->
  tableNameMap a !! key = Some stored ->
  key = Js.toLowerCase stored /\ key <> "__proto__".
Proof.
  intros Hm%reachable_tableNameMapOk Hl. by apply Hm.
Qed.

(** X16. Resolution ignores case: in every state the agent reaches, two
    requested names with the same lowercased form, under which the
    table-name map holds a name that is not empty, both resolve to that
    stored name, which has the same lowercased form as the requests. *)
Theorem resolution_ignores_case (client : Pg.Client) (a : Agent)
    (requested requested' stored : string) :
  reachable client a ->
  Js.toLowerCase requested = Js.toLowerCase requested' ->
  tableNameMap a !! Js.toLowerCase requested = Some stored ->
  stored <> EmptyString ->
  getActualTableName (Some requested) a = (inr (Js.Text stored), a) /\
  getActualTableName (Some requested') a = (inr (Js.Text stored), a) /\
  Js.toLowerCase stored = Js.toLowerCase requested.
Proof.
  intros Hm%reachable_tableNameMapOk Hlow Hl Hne.
  rewrite !getActualTableName_run. unfold Js.read.
  rewrite <- Hlow, Hl. cbn. rewrite !decide_False by done.
  do 2 (split; [done|]). symmetry. by apply (Hm _ _ Hl).
Qed.

(** X17. Resolution is idempotent: in every state the agent reaches, when a
    request resolves to a string (a stored name or the request itself, not a
    property of [Object.prototype]), that string resolves to itself. *)
Theorem resolution_idempotent (client : Pg.Client) (a : Agent)
    (requested actual : string) :
  reachable client a ->
  getActualTableName (Some requested) a = (inr (Js.Text actual), a) ->
  getActualTableName (Some actual) a = (inr (Js.Text actual), a).
Proof.
  intros Hm%reachable_tableNameMapOk.
  rewrite !getActualTableName_run. unfold Js.read. intros [= Hr].
  destruct (tableNameMap a !! Js.toLowerCase requested) as [stored|] eqn:Hl.
  - cbn in Hr. case_decide as He.
    + injection Hr as <-. by rewrite Hl, He.
    + injection Hr as <-. destruct (Hm _ _ Hl) as [Hkey _].
      rewrite <- Hkey, Hl. cbn. by rewrite decide_False.
  - case_decide; [discriminate Hr|]. cbn in Hr. injection Hr as <-.
    rewrite Hl. by rewrite decide_False.
Qed.

(** ** A rejected connection *)

(** X18. When the agent is not connected and the client rejects the
    connection, [execute], [introspect] and [generatePlan] raise that
    rejection at once: the one call made on the client is the connection
    attempt, the plan generator's answer plays no part, and the flag and
    the table-name map stay as they were, so that the next call asks for
    the connection again. *)
Theorem connect_rejected (client : Pg.Client) (a : Agent) (reason : string) :
  connected a = false ->
  Pg.connect client (calls a) = Some reason ->
  (forall plan,
     execute client plan a = (inl (Rejected reason), record Pg.CallConnect a)) /\
  introspect client a = (inl (Rejected reason), record Pg.CallConnect a) /\
  (forall env generator userPrompt provider model,
     generatePlan client env generator userPrompt provider model a =
     (inl (Rejected reason), record Pg.CallConnect a)) /\
  connected (record Pg.CallConnect a) = false /\
  tableNameMap (record Pg.CallConnect a) = tableNameMap a.
Proof.
  intros Hc Hconn.
  assert (Hi : introspect client a =
               (inl (Rejected reason), record Pg.CallConnect a)).
  { unfold introspect.
    by rewrite bind_run, connectIfNeeded_disconnected, Hconn. }
  split.
  { intros plan. unfold execute.
    by rewrite bind_run, connectIfNeeded_disconnected, Hconn. }
  split; [done|]. split; [|done].
  intros env generator userPrompt provider model. unfold generatePlan.
  cbv zeta. by rewrite bind_run, Hi.
Qed.

(** X22. When the client rejects [end], [close] raises the rejection and the
    agent stays connected: the flag is still true, and an [execute] that
    follows makes no connection attempt, only its query or nothing. *)
Theorem end_rejected (client : Pg.Client) (a : Agent) (reason : string) :
  connected a = true ->
  Pg.end_ client (calls a) = Some reason ->
  close client a = (inl (Rejected reason), record Pg.CallEnd a) /\
  connected (record Pg.CallEnd a) = true /\
  forall plan, exists rest,
    calls (snd (execute client plan (record Pg.CallEnd a))) =
      calls a ++ Pg.CallEnd :: rest /\
    Forall isQuery rest.
Proof.
  intros Hc Hend. split; [by rewrite close_connected, Hend|].
  split; [done|]. intros plan.
  destruct (execute_connect_then_queries client plan) as (k & Hk & ->).
  rewrite bind_run, connectIfNeeded_connected by done.
  destruct (Hk tt (record Pg.CallEnd a)) as (_ & rest & Hrest & Hq).
  exists rest. split; [|done]. rewrite Hrest. cbn. by rewrite <- app_assoc.
Qed.

(** ** From [introspect] to [execute] *)

Lemma lastNamed_Some (key name : string) (names : list string) :
  lastNamed key names = Some name ->
  name ∈ names /\ Js.toLowerCase name = key.
Proof.
  unfold lastNamed. intros H%last_Some_elem_of.
  by apply list_elem_of_filter in H as [? ?].
Qed.

Lemma lastNamed_app (key : string) (names names' : list string) :
  lastNamed key (names ++ names') =
  match lastNamed key names' with
  | Some name => Some name
  | None => lastNamed key names
  end.
Proof. unfold lastNamed. by rewrite filter_app, last_app. Qed.

Lemma lastNamed_None (key : string) (names : list string) :
  (forall name, name ∈ names -> Js.toLowerCase name <> key) ->
  lastNamed key names = None.
Proof.
  intros H. unfold lastNamed. apply last_None.
  induction names as [|n names IH]; [done|].
  rewrite filter_cons, decide_False.
  - apply IH. intros name Hin. apply H. by right.
  - apply H. by left.
Qed.

(** The table-name map once [introspect] has run over a catalog. *)
Lemma introspect_then_lookup (db : InformationSchema.t) (a : Agent)
    (key : string) :
  tableNameMap (snd (introspect (InformationSchema.client db) a)) !! key =
  if decide (key = "__proto__") then None
  else lastNamed key (publicNames db).
Proof.
  rewrite introspect_catalog_run. cbn [snd tableNameMap].
  rewrite lookup_foldl_addTableName, lookup_empty.
  case_decide; [done|]. by destruct (lastNamed key (publicNames db)).
Qed.


(** X20. Round trip through [introspect]: when a table of [public] is the
    only one with its lowercased name, that name is not empty and its
    lowercased form is not [__proto__], then after [introspect] over the
    catalog every request with the same lowercased form, the name itself
    included, resolves to that name. *)
Theorem introspect_then_resolve (db : InformationSchema.t) (a : Agent)
    (name requested : string) :
  name ∈ publicNames db ->
  name <> EmptyString ->
  Js.toLowerCase name <> "__proto__" ->
  (forall other,
     other ∈ publicNames db ->
     Js.toLowerCase other = Js.toLowerCase name -> other = name) ->
  Js.toLowerCase requested = Js.toLowerCase name ->
  getActualTableName (Some requested)
    (snd (introspect (InformationSchema.client db) a)) =
  (inr (Js.Text name), snd (introspect (InformationSchema.client db) a)).
Proof.
  intros Hin Hne Hp Huniq Hlow.
  rewrite getActualTableName_run. unfold Js.read.
  rewrite introspect_then_lookup, Hlow, decide_False by done.
  destruct (lastNamed (Js.toLowerCase name) (publicNames db)) as [found|] eqn:Hl.
  - apply lastNamed_Some in Hl as [Hfound Hkey].
    rewrite (Huniq found Hfound Hkey). cbn. by rewrite decide_False.
  - unfold lastNamed in Hl. apply last_None in Hl.
    assert (Hf : name ∈ filter (fun n => Js.toLowerCase n = Js.toLowerCase name)
                   (publicNames db)) by by apply list_elem_of_filter.
    rewrite Hl in Hf. by apply elem_of_nil in Hf.
Qed.

(** X21. Two tables of [public] whose names have the same lowercased form
    share one key of the table-name map, and the later one in the catalog
    holds it: after [introspect], a request for the earlier table by its
    exact name is quoted as the later table.  The later name is not empty
    and its lowercased form is not [__proto__]. *)
Theorem introspect_case_collision (db : InformationSchema.t) (a : Agent)
    (earlier later : string) (before after : list string) :
  publicNames db = before ++ later :: after ->
  earlier ∈ before ->
  Js.toLowerCase earlier = Js.toLowerCase later ->
  (forall name, name ∈ after -> Js.toLowerCase name <> Js.toLowerCase later) ->
  later <> EmptyString ->
  Js.toLowerCase later <> "__proto__" ->
  quotedTableName (snd (introspect (InformationSchema.client db) a)) earlier =
  Js.dquote +:+ later +:+ Js.dquote.
Proof.
  intros Hnames _ Hlow Hafter Hne Hp. unfold quotedTableName, Js.read.
  rewrite introspect_then_lookup, Hlow, decide_False by done.
  rewrite Hnames. change (later :: after) with ([later] ++ after).
  rewrite !lastNamed_app, (lastNamed_None _ after Hafter).
  unfold lastNamed at 1. rewrite filter_cons, decide_True by done.
  cbn. by rewrite decide_False.
Qed.

End General.

(** * Instances

    The theorems above hold for every lowercasing function.  The instances
    below are evaluated with the one on ASCII letters, which agrees with
    [String.prototype.toLowerCase] on the strings they use. *)

Section Instances.

#[local] Existing Instance Js.asciiLowercase.

Lemma usersAgent_reachable : reachable usersClient usersAgent.
Proof. eapply reachable_step; [apply reachable_new|apply step_introspect]. Qed.

Lemma usersAgent_connected : connected usersAgent = true.
Proof. vm_compute. reflexivity. Qed.

(** After introspection of [usersDb], a request for [USERS] is quoted as the
    stored name [Users], and a request for an unknown table as it is. *)
Example usersAgent_quotes :
  quotedTableName usersAgent "USERS" = Js.dquote +:+ "Users" +:+ Js.dquote /\
  quotedTableName usersAgent "Orders" = Js.dquote +:+ "Orders" +:+ Js.dquote.
Proof. split; vm_compute; reflexivity. Qed.

(** C1, as the claim words it, fails on a request for a table named
    [constructor] that the table-name map does not hold: the statement sent
    has the text of [Object.prototype.constructor] as its table identifier,
    not the requested name. *)
Lemma execute_constructor_not_passed_through :
  tableNameMap newAgent !! Js.toLowerCase "constructor" = None /\
  calls (snd (execute quietClient selectConstructor newAgent)) =
    [Pg.CallConnect;
     Pg.CallQuery
       ("SELECT * FROM " +:+ Js.dquote +:+
        "function Object() { [native code] }" +:+ Js.dquote +:+ " WHERE TRUE")
       None] /\
  calls (snd (execute quietClient selectConstructor newAgent)) <>
    [Pg.CallConnect;
     Pg.CallQuery
       ("SELECT * FROM " +:+ Js.dquote +:+ "constructor" +:+ Js.dquote +:+
        " WHERE TRUE")
       None].
Proof.
  split; [reflexivity|]. split; [reflexivity|]. vm_compute. discriminate.
Qed.

Lemma execute_quotes_inherited_property_witness :
  exists text params,
    submits quietClient text params newAgent
      (execute quietClient selectConstructor newAgent) /\
    tableClause selectConstructor
      (Js.dquote +:+ "function Object() { [native code] }" +:+ Js.dquote) text.
Proof.
  apply (execute_quotes_inherited_property quietClient selectConstructor
           newAgent "constructor").
  - left. reflexivity.
  - reflexivity.
  - intros [H|H]; discriminate H.
  - right. reflexivity.
  - reflexivity.
  - reflexivity.
Defined.

Lemma execute_select_star_witness :
  submits usersClient
    ("SELECT * FROM " +:+ quotedTableName usersAgent "USERS" +:+ " WHERE TRUE")
    None usersAgent (execute usersClient selectAll usersAgent).
Proof.
  apply (execute_select_star usersClient selectAll usersAgent "USERS").
  - reflexivity.
  - reflexivity.
  - left. reflexivity.
  - reflexivity.
  - left. exact usersAgent_connected.
Defined.

Lemma execute_insert_compiles_witness :
  submits usersClient
    ("INSERT INTO " +:+ quotedTableName usersAgent "USERS" +:+
     " (a, b) VALUES ($1, $2) RETURNING *")
    (Some [Js.Num "1"; Js.Str "x"]) usersAgent
    (execute usersClient insertAB usersAgent).
Proof.
  apply (execute_insert_compiles usersClient insertAB usersAgent "USERS"
           [("a", Js.Num "1"); ("b", Js.Str "x")]).
  - reflexivity.
  - reflexivity.
  - reflexivity.
  - left. exact usersAgent_connected.
  - reflexivity.
Defined.

Lemma execute_update_compiles_witness :
  submits usersClient
    ("UPDATE " +:+ quotedTableName usersAgent "users" +:+
     " SET a = $1 WHERE id = 1 RETURNING *")
    (Some [Js.Num "5"]) usersAgent (execute usersClient updateA usersAgent).
Proof.
  apply (execute_update_compiles usersClient updateA usersAgent "users"
           "id = 1" [("a", Js.Num "5")]).
  - reflexivity.
  - reflexivity.
  - reflexivity.
  - reflexivity.
  - left. exact usersAgent_connected.
  - reflexivity.
  - reflexivity.
Defined.

Lemma execute_delete_compiles_witness :
  submits usersClient
    ("DELETE FROM " +:+ quotedTableName usersAgent "users" +:+
     " WHERE id = 1 RETURNING *")
    None usersAgent (execute usersClient deleteOne usersAgent).
Proof.
  apply (execute_delete_compiles usersClient deleteOne usersAgent "users"
           "id = 1").
  - reflexivity.
  - reflexivity.
  - reflexivity.
  - left. exact usersAgent_connected.
  - reflexivity.
Defined.



Lemma validate_iff_witness :
  validate (Plan.Build (Some "truncate") (Some "users") None None None) = true.
Proof.
  destruct (validate_iff dropUsers) as (_ & _ & H & _).
  apply H; discriminate.
Defined.

Lemma connection_lifecycle_witness :
  connectIfNeeded usersClient usersAgent = (inr tt, usersAgent) /\
  connectIfNeeded usersClient newAgent =
    (inr tt, {| connected := true; tableNameMap := ∅;
                calls := [Pg.CallConnect] |}) /\
  (exists a1,
     close usersClient usersAgent = (inr tt, a1) /\
     connected a1 = false /\
     (forall plan, connected (snd (execute usersClient plan a1)) = true) /\
     connected (snd (introspect usersClient a1)) = true) /\
  close usersClient newAgent = (inr tt, newAgent).
Proof.
  destruct (connection_lifecycle usersClient usersAgent)
    as (Hnoop & _ & _ & Hclose & _).
  destruct (connection_lifecycle usersClient newAgent)
    as (_ & Hconnect & _ & _ & Hclosed).
  split; [apply Hnoop; exact usersAgent_connected|].
  split; [apply Hconnect; reflexivity|].
  split; [|apply Hclosed; reflexivity].
  destruct Hclose as (a1 & Hrun & Hflag & _ & _ & _ & _ & Hagain);
    [exact usersAgent_connected|reflexivity|].
  exists a1. split; [exact Hrun|]. split; [exact Hflag|].
  apply Hagain. reflexivity.
Defined.

(** C10, as the claim words it, fails on an update plan that has neither
    [where] nor [values]: [Object.keys(plan.values)] raises before any
    statement is built, and no query reaches the client. *)
Lemma execute_update_without_values :
  Plan.operation updateBare = Some "update" /\
  Plan.where_ updateBare = None /\
  execute quietClient updateBare newAgent =
    (inl TypeError,
     {| connected := true; tableNameMap := ∅; calls := [Pg.CallConnect] |}).
Proof. repeat split. Qed.

Lemma execute_absent_where_witness :
  submits usersClient
    ("DELETE FROM " +:+ quotedTableName usersAgent "users" +:+
     " WHERE undefined RETURNING *")
    None usersAgent (execute usersClient deleteNoWhere usersAgent) /\
  submits usersClient
    ("UPDATE " +:+ quotedTableName usersAgent "users" +:+
     " SET a = $1 WHERE undefined RETURNING *")
    (Some [Js.Num "5"]) usersAgent (execute usersClient updateNoWhere usersAgent).
Proof.
  split.
  - apply (execute_absent_where usersClient deleteNoWhere usersAgent "users");
      try reflexivity. left. exact usersAgent_connected.
  - apply (execute_absent_where usersClient updateNoWhere usersAgent "users");
      try reflexivity. left. exact usersAgent_connected.
Defined.

Lemma dbName_sound_witness :
  exists before suffix,
    "postgres://u:p@host:5432/shop?sslmode=require" =
      before +:+
      String "/"
        (DbUrl.dbName "postgres://u:p@host:5432/shop?sslmode=require" +:+ suffix) /\
    (suffix = EmptyString \/ exists rest, suffix = String "?" rest).
Proof.
  destruct (dbName_sound "postgres://u:p@host:5432/shop?sslmode=require")
    as [_ H].
  apply H. vm_compute. discriminate.
Defined.

Lemma dbName_last_segment_witness :
  DbUrl.dbName
    ("postgres://u:p@host:5432" +:+ String "/" ("shop" +:+ "?sslmode=require"))
  = "shop".
Proof.
  apply (dbName_last_segment "postgres://u:p@host:5432" "shop"
           "?sslmode=require").
  - reflexivity.
  - discriminate.
  - reflexivity.
  - reflexivity.
Defined.

Lemma dbName_empty_witness : DbUrl.dbName "postgres://host/" = EmptyString.
Proof.
  apply (dbName_empty "postgres://host/"). right.
  exists "postgres://host". split; reflexivity.
Defined.

Lemma reachable_inStep_witness :
  replay usersClient [] (calls usersAgent) false = Some (connected usersAgent).
Proof. apply (reachable_inStep usersClient usersAgent usersAgent_reachable). Defined.

Lemma introspect_schema_entries_witness :
  exists schema,
    fst (introspect (InformationSchema.client twoSchemas) newAgent) = inr schema /\
    (exists entry,
       schema !! "users" = Some entry /\
       forall column,
         Schema.fields entry !! column =
         if decide (column = "__proto__") then None
         else fieldOf <$> lastColumn twoSchemas "users" column) /\
    schema !! "orders" = None.
Proof.
  destruct (introspect_schema_entries twoSchemas newAgent "users")
    as (schema & Hrun & Hin & _).
  destruct (introspect_schema_entries twoSchemas newAgent "orders")
    as (schema' & Hrun' & _ & Hout).
  assert (schema' = schema) as -> by congruence.
  exists schema. split; [exact Hrun|]. split.
  - apply Hin; [vm_compute; by left|discriminate].
  - apply Hout. left. vm_compute. intros H. inversion H as [|? ? ? H']. inversion H'.
Defined.

Lemma introspect_map_on_failure_witness :
  (fst (introspect refusingClient usersAgent) = inl (Rejected "connection lost") /\
   tableNameMap (snd (introspect refusingClient usersAgent)) =
     tableNameMap usersAgent) /\
  (forall key stored,
     tableNameMap (snd (introspect usersClient usersAgent)) !! key = Some stored ->
     fromRows (InformationSchema.selectTables usersDb) key stored).
Proof.
  split.
  - apply (introspect_map_on_failure refusingClient usersAgent).
    + left. exact usersAgent_connected.
    + reflexivity.
  - intros key stored.
    apply (introspect_map_on_failure usersClient usersAgent).
    + left. exact usersAgent_connected.
    + reflexivity.
Defined.

Lemma execute_exceptions_witness :
  (fst (execute quietClient updateBare newAgent) = inl TypeError <->
   Plan.table updateBare = None \/
   ((Plan.operation updateBare = Some "insert" \/
     Plan.operation updateBare = Some "update") /\
    Plan.values updateBare = None)) /\
  (forall msg,
     fst (execute quietClient updateBare newAgent) = inl (Error msg) <->
     msg = "Unsupported operation" /\
     Plan.table updateBare <> None /\
     ~ supported (Plan.operation updateBare)) /\
  (fst (execute quietClient updateBare newAgent) = inl TypeError \/
   (exists msg, fst (execute quietClient updateBare newAgent) = inl (Error msg)) ->
   calls (snd (execute quietClient updateBare newAgent)) =
   calls newAgent ++ connectionCalls newAgent).
Proof.
  apply (execute_exceptions quietClient updateBare newAgent).
  right. reflexivity.
Defined.

Lemma validate_then_execute_witness :
  fst (execute quietClient dropUsers newAgent) =
    inl (Error "Unsupported operation") /\
  exists text params,
    submits usersClient text params usersAgent
      (execute usersClient insertAB usersAgent).
Proof.
  split.
  - destruct (validate_then_execute quietClient dropUsers newAgent)
      as (H & _ & _); [reflexivity|right; reflexivity|].
    apply H. exact not_supported_drop.
  - destruct (validate_then_execute usersClient insertAB usersAgent)
      as (_ & _ & H); [reflexivity|left; exact usersAgent_connected|].
    apply H; [right; left; reflexivity|].
    vm_compute. discriminate.
Defined.

Lemma execute_select_fields_where_witness :
  submits usersClient
    ("SELECT " +:+ Js.join ", " ["id"; "name"] +:+
     " FROM " +:+ quotedTableName usersAgent "users" +:+
     " WHERE " +:+ (if decide ("id > 3" = EmptyString) then "TRUE" else "id > 3"))
    None usersAgent
    (execute usersClient
       (Plan.Build (Some "select") (Some "users") (Some ["id"; "name"])
          (Some "id > 3") None)
       usersAgent).
Proof.
  apply (execute_select_fields_where usersClient
           (Plan.Build (Some "select") (Some "users") (Some ["id"; "name"])
              (Some "id > 3") None)
           usersAgent "users" "id" "id > 3" ["name"]).
  - reflexivity.
  - reflexivity.
  - reflexivity.
  - reflexivity.
  - left. exact usersAgent_connected.
Defined.

Lemma execute_empty_values_witness :
  submits usersClient
    ("INSERT INTO " +:+ quotedTableName usersAgent "users" +:+
     " () VALUES () RETURNING *")
    (Some []) usersAgent
    (execute usersClient
       (Plan.Build (Some "insert") (Some "users") None None (Some []))
       usersAgent).
Proof.
  apply (execute_empty_values usersClient
           (Plan.Build (Some "insert") (Some "users") None None (Some []))
           usersAgent "users").
  - reflexivity.
  - reflexivity.
  - left. exact usersAgent_connected.
  - reflexivity.
Defined.

Lemma positional_binding_witness :
  exists columns targets params,
    submits usersClient
      ("INSERT INTO " +:+ quotedTableName usersAgent "USERS" +:+
       " (" +:+ Js.join ", " columns +:+
       ") VALUES (" +:+ Js.join ", " targets +:+ ") RETURNING *")
      (Some params) usersAgent (execute usersClient insertAB usersAgent) /\
    length columns = 2%nat /\
    length targets = 2%nat /\
    length params = 2%nat /\
    NoDup targets /\
    columns !! 1%nat = Some "b" /\
    targets !! 1%nat = Some ("$" +:+ pretty 2%nat) /\
    params !! 1%nat = Some (Js.Str "x").
Proof.
  destruct (positional_binding usersClient insertAB usersAgent "USERS"
              [("a", Js.Num "1"); ("b", Js.Str "x")]) as [Hinsert _].
  - reflexivity.
  - reflexivity.
  - left. exact usersAgent_connected.
  - destruct Hinsert
      as (columns & targets & params & Hsub & Hc & Ht & Hp & Hnd & Hat);
      [reflexivity|].
    exists columns, targets, params.
    split; [exact Hsub|]. split; [exact Hc|]. split; [exact Ht|].
    split; [exact Hp|]. split; [exact Hnd|].
    apply (Hat 1%nat "b" (Js.Str "x")). reflexivity.
Defined.

Lemma tableNameMap_keys_lowercase_witness :
  "users" = Js.toLowerCase "Users" /\ "users" <> "__proto__".
Proof.
  apply (tableNameMap_keys_lowercase usersClient usersAgent "users" "Users").
  - exact usersAgent_reachable.
  - vm_compute. reflexivity.
Defined.

Lemma resolution_ignores_case_witness :
  getActualTableName (Some "USERS") usersAgent = (inr (Js.Text "Users"), usersAgent) /\
  getActualTableName (Some "uSeRs") usersAgent = (inr (Js.Text "Users"), usersAgent) /\
  Js.toLowerCase "Users" = Js.toLowerCase "USERS".
Proof.
  apply (resolution_ignores_case usersClient usersAgent "USERS" "uSeRs" "Users").
  - exact usersAgent_reachable.
  - reflexivity.
  - vm_compute. reflexivity.
  - discriminate.
Defined.

Lemma resolution_idempotent_witness :
  getActualTableName (Some "Users") usersAgent = (inr (Js.Text "Users"), usersAgent).
Proof.
  apply (resolution_idempotent usersClient usersAgent "USERS" "Users").
  - exact usersAgent_reachable.
  - vm_compute. reflexivity.
Defined.

Lemma connect_rejected_witness :
  (forall plan,
     execute
       {| Pg.connect := fun _ => Some "ECONNREFUSED";
          Pg.end_ := fun _ => None;
          Pg.query := fun _ _ _ => inr [] |}
       plan newAgent =
     (inl (Rejected "ECONNREFUSED"), record Pg.CallConnect newAgent)) /\
  connected (record Pg.CallConnect newAgent) = false.
Proof.
  destruct (connect_rejected
              {| Pg.connect := fun _ => Some "ECONNREFUSED";
                 Pg.end_ := fun _ => None;
                 Pg.query := fun _ _ _ => inr [] |}
              newAgent "ECONNREFUSED") as (He & _ & _ & Hflag & _);
    [reflexivity|reflexivity|].
  split; [exact He|exact Hflag].
Defined.

Lemma end_rejected_witness :
  close
    {| Pg.connect := fun _ => None;
       Pg.end_ := fun _ => Some "socket hang up";
       Pg.query := fun _ _ _ => inr [] |}
    usersAgent =
  (inl (Rejected "socket hang up"), record Pg.CallEnd usersAgent) /\
  connected (record Pg.CallEnd usersAgent) = true.
Proof.
  destruct (end_rejected
              {| Pg.connect := fun _ => None;
                 Pg.end_ := fun _ => Some "socket hang up";
                 Pg.query := fun _ _ _ => inr [] |}
              usersAgent "socket hang up") as (Hclose & Hflag & _);
    [exact usersAgent_connected|reflexivity|].
  split; [exact Hclose|exact Hflag].
Defined.


Lemma introspect_then_resolve_witness :
  getActualTableName (Some "USERS") (snd (introspect usersClient newAgent)) =
  (inr (Js.Text "Users"), snd (introspect usersClient newAgent)).
Proof.
  apply (introspect_then_resolve usersDb newAgent "Users" "USERS").
  - vm_compute. by left.
  - discriminate.
  - vm_compute. discriminate.
  - intros other Hin _. vm_compute in Hin.
    apply list_elem_of_singleton in Hin. exact Hin.
  - reflexivity.
Defined.

Lemma introspect_case_collision_witness :
  quotedTableName
    (snd (introspect (InformationSchema.client collidingDb) newAgent)) "Users" =
  Js.dquote +:+ "users" +:+ Js.dquote.
Proof.
  apply (introspect_case_collision collidingDb newAgent "Users" "users"
           ["Users"] []).
  - reflexivity.
  - by left.
  - reflexivity.
  - intros name Hin. by apply elem_of_nil in Hin.
  - discriminate.
  - vm_compute. discriminate.
Defined.

End Instances.
